(** * ImageHide: hiding an encrypted message in the low bits of an image

    A shallow embedding of the core of ImageHide ([core/encoding.py],
    [core/crypto.py], [core/steganography.py], [core/errors.py]) and the
    properties of it that the specification states.

    Conventions of the embedding
    - a Python [int] is a [Z]; [len] of a sequence is [length] (a [nat]);
    - a [bytes] object is a [list Z] whose elements satisfy [is_byte];
    - a bit of a bit list ([0] or [1] in the source) is a [bool], read and
      written with [Z.testbit] and [Z.b2z];
    - a [str] is the list of its code points;
    - a raised exception is the [Err] branch of [result];
    - [os.urandom] reads from an explicit entropy stream that is threaded
      through the functions that draw from it. *)

From Stdlib Require Import String Ascii ZArith Arith Bool List Lia.
Import ListNotations.
Open Scope Z_scope.

(** ** core/errors.py and the built-in exceptions the core can raise *)
Module Errors.

Inductive error : Type :=
| CapacityError (required_bits available_bits : Z)
| FormatError (message : string)
| DecryptionError
| ValueError (message : string)
| NameError (name : string)
| StopIteration
| TypeError
| OverflowError
| StructError
| UnicodeEncodeError
| UnicodeDecodeError.

Inductive result (A : Type) : Type :=
| Ok (a : A)
| Err (e : error).
Arguments Ok {A} a.
Arguments Err {A} e.

Definition bind {A B} (r : result A) (k : A -> result B) : result B :=
  match r with
  | Ok a => k a
  | Err e => Err e
  end.

Definition is_ok {A} (r : result A) : bool :=
  match r with Ok _ => true | Err _ => false end.

End Errors.
Export Errors.

Notation "x <- r ;; k" := (bind r (fun x => k))
  (at level 61, r at next level, right associativity).
Notation "' p <- r ;; k" := (bind r (fun p => k))
  (at level 61, p pattern, r at next level, right associativity).

(** ** Bytes, strings and slices *)

Definition is_byte (b : Z) : Prop := 0 <= b < 256.
Definition bytes_ok (bs : list Z) : Prop := Forall is_byte bs.

(** [s[lo:hi]] for indices [0 <= lo], [0 <= hi]. *)
Definition slice {A} (lo hi : nat) (l : list A) : list A :=
  firstn (hi - lo) (skipn lo l).

(** The code points of a literal. *)
Definition text_of_string (s : string) : list Z :=
  map (fun a => Z.of_N (N_of_ascii a)) (list_ascii_of_string s).

Definition list_eqb (l1 l2 : list Z) : bool :=
  if list_eq_dec Z.eq_dec l1 l2 then true else false.

Definition startswith (s prefix : list Z) : bool :=
  list_eqb (firstn (length prefix) s) prefix.

Definition endswith (s suffix : list Z) : bool :=
  (length suffix <=? length s)%nat
  && list_eqb (skipn (length s - length suffix) s) suffix.

(** ** core/encoding.py *)
Module Encoding.

(** A code point that a [str] can hold and UTF-8 can carry: every scalar
    value, the surrogates [D800..DFFF] left out. *)
Definition is_surrogate (c : Z) : bool := (0xD800 <=? c) && (c <=? 0xDFFF).
Definition scalar (c : Z) : bool :=
  (0 <=? c) && (c <=? 0x10FFFF) && negb (is_surrogate c).

(** [str.encode("utf-8")] on one character. *)
Definition utf8_encode_char (c : Z) : result (list Z) :=
  if negb (scalar c) then Err UnicodeEncodeError
  else if c <? 0x80 then Ok [c]
  else if c <? 0x800 then Ok [0xC0 + c / 64; 0x80 + c mod 64]
  else if c <? 0x10000 then
    Ok [0xE0 + c / 4096; 0x80 + (c / 64) mod 64; 0x80 + c mod 64]
  else
    Ok [0xF0 + c / 262144; 0x80 + (c / 4096) mod 64;
        0x80 + (c / 64) mod 64; 0x80 + c mod 64].

Fixpoint utf8_encode (t : list Z) : result (list Z) :=
  match t with
  | [] => Ok []
  | c :: t' =>
      bs <- utf8_encode_char c ;;
      rest <- utf8_encode t' ;;
      Ok (bs ++ rest)
  end.

Definition is_cont (b : Z) : bool := (0x80 <=? b) && (b <=? 0xBF).

(** [bytes.decode("utf-8")]: the strict decoder (no overlong forms, no
    surrogates, nothing above [10FFFF], no truncated sequence). *)
Fixpoint utf8_decode (bs : list Z) : result (list Z) :=
  match bs with
  | [] => Ok []
  | b0 :: r0 =>
      if (0 <=? b0) && (b0 <? 0x80) then
        t <- utf8_decode r0 ;; Ok (b0 :: t)
      else if (0xC2 <=? b0) && (b0 <=? 0xDF) then
        match r0 with
        | b1 :: r1 =>
            if is_cont b1 then
              t <- utf8_decode r1 ;;
              Ok ((b0 - 0xC0) * 64 + (b1 - 0x80) :: t)
            else Err UnicodeDecodeError
        | _ => Err UnicodeDecodeError
        end
      else if (0xE0 <=? b0) && (b0 <=? 0xEF) then
        match r0 with
        | b1 :: b2 :: r2 =>
            let c := (b0 - 0xE0) * 4096 + (b1 - 0x80) * 64 + (b2 - 0x80) in
            if is_cont b1 && is_cont b2 && (0x800 <=? c)
               && negb (is_surrogate c) then
              t <- utf8_decode r2 ;; Ok (c :: t)
            else Err UnicodeDecodeError
        | _ => Err UnicodeDecodeError
        end
      else if (0xF0 <=? b0) && (b0 <=? 0xF4) then
        match r0 with
        | b1 :: b2 :: b3 :: r3 =>
            let c := (b0 - 0xF0) * 262144 + (b1 - 0x80) * 4096
                     + (b2 - 0x80) * 64 + (b3 - 0x80) in
            if is_cont b1 && is_cont b2 && is_cont b3
               && (0x10000 <=? c) && (c <=? 0x10FFFF) then
              t <- utf8_decode r3 ;; Ok (c :: t)
            else Err UnicodeDecodeError
        | _ => Err UnicodeDecodeError
        end
      else Err UnicodeDecodeError
  end.

(** [text_to_bytes(text, "utf-8")] and [bytes_to_text(data, "utf-8")]. *)
Definition text_to_bytes (text : list Z) : result (list Z) :=
  utf8_encode text.

Definition bytes_to_text (data : list Z) : result (list Z) :=
  utf8_decode data.

(** [for i in range(7, -1, -1)]. *)
Definition range_7_down : list Z := [7; 6; 5; 4; 3; 2; 1; 0].

(** [bytes_to_bits]: the two nested loops, appending to [bits]. *)
Definition bytes_to_bits (data : list Z) : list bool :=
  fold_left
    (fun bits byte =>
       fold_left (fun bits i => bits ++ [Z.testbit byte i]) range_7_down bits)
    data [].

(** The loop state of [bits_to_bytes]. *)
Record packer : Type := mkPacker {
  byte_array : list Z;
  byte_value : Z;
  bit_count : Z
}.

Definition bits_to_bytes_step (st : packer) (bit : bool) : packer :=
  let byte_value := Z.lor (Z.shiftl (byte_value st) 1) (Z.b2z bit) in
  let bit_count := bit_count st + 1 in
  if bit_count =? 8
  then mkPacker (byte_array st ++ [byte_value]) 0 0
  else mkPacker (byte_array st) byte_value bit_count.

Definition bits_to_bytes (bits : list bool) : list Z :=
  byte_array (fold_left bits_to_bytes_step bits (mkPacker [] 0 0)).

(** One character of [rotate_letters]. Python's [%] with a positive
    modulus is [Z.modulo]; the test [rotated < 0] is kept as written. *)
Definition rotate_char (shift : Z) (char : Z) : Z :=
  if (0x61 <=? char) && (char <=? 0x7A) then
    let base := 0x61 in
    let rotated := (char - base + shift) mod 26 in
    let rotated := if rotated <? 0 then rotated + 26 else rotated in
    rotated + base
  else if (0x41 <=? char) && (char <=? 0x5A) then
    let base := 0x41 in
    let rotated := (char - base + shift) mod 26 in
    let rotated := if rotated <? 0 then rotated + 26 else rotated in
    rotated + base
  else char.

Definition rotate_letters (text : list Z) (shift : Z) : list Z :=
  fold_left (fun result char => result ++ [rotate_char shift char]) text [].

End Encoding.

(** ** core/crypto.py *)
Module Crypto.

Definition SALT_LENGTH : nat := 16.
Definition NONCE_LENGTH : nat := 12.
Definition TAG_LENGTH : nat := 16.

(** A [PBKDF2HMAC] object is used once, for its method [derive], which
    returns the key or raises. *)
Definition kdf : Type := list Z -> result (list Z).

(** The primitives that [crypto.py] imports from the [cryptography]
    package: PBKDF2-HMAC-SHA256 and AES in GCM mode without associated
    data. [PBKDF2HMAC] is the constructor with [algorithm=hashes.SHA256()];
    both the constructor and [derive] return [Err] where the package raises,
    as it does for fewer than one iteration and for a key length it cannot
    produce. [aes_gcm_encrypt] returns the ciphertext and the tag;
    [aes_gcm_decrypt] returns [None] where the package raises
    [InvalidTag]. *)
Class Primitives : Type := {
  PBKDF2HMAC :
    forall (length : Z) (salt : list Z) (iterations : Z), result kdf;
  aes_gcm_encrypt : forall (key nonce plaintext : list Z), list Z * list Z;
  aes_gcm_decrypt : forall (key nonce tag ciphertext : list Z), option (list Z)
}.

(** [algorithms.AES(key)] accepts keys of 16, 24 or 32 bytes. *)
Definition aes_key_ok (key : list Z) : bool :=
  (length key =? 16)%nat || (length key =? 24)%nat || (length key =? 32)%nat.

(** [PBKDF2HMAC(...).derive(password)]. *)
Definition pbkdf2_hmac_sha256 {P : Primitives} (length : Z) (salt : list Z)
    (iterations : Z) (password : list Z) : result (list Z) :=
  kdf <- PBKDF2HMAC length salt iterations ;;
  kdf password.

(** [modes.GCM(nonce, tag)] accepts a nonce of 8 to 128 bytes and a tag of
    16 bytes. *)
Definition gcm_arguments_ok (nonce tag : list Z) : bool :=
  (8 <=? length nonce)%nat && (length nonce <=? 128)%nat
  && (length tag =? 16)%nat.

(** What the engine relies on from the primitives: with at least one
    iteration and a key length from 1 to [2^31 - 1], PBKDF2 returns a key of
    the length asked for; AES-GCM keeps the length of the text, gives a tag
    of 16 bytes, and decrypts what it encrypted. *)
Class PrimitivesLaws (P : Primitives) : Prop := {
  pbkdf2_length : forall len salt iters pw,
    0 < len < 2147483648 -> 0 < iters < 2147483648 ->
    exists key,
      pbkdf2_hmac_sha256 len salt iters pw = Ok key
      /\ length key = Z.to_nat len;
  encrypt_ciphertext_length : forall key nonce pt,
    length (fst (aes_gcm_encrypt key nonce pt)) = length pt;
  encrypt_tag_length : forall key nonce pt,
    length (snd (aes_gcm_encrypt key nonce pt)) = TAG_LENGTH;
  encrypt_bytes : forall key nonce pt,
    bytes_ok pt ->
    bytes_ok (fst (aes_gcm_encrypt key nonce pt))
    /\ bytes_ok (snd (aes_gcm_encrypt key nonce pt));
  decrypt_encrypt : forall key nonce pt,
    aes_key_ok key = true -> length nonce = NONCE_LENGTH -> bytes_ok pt ->
    aes_gcm_decrypt key nonce (snd (aes_gcm_encrypt key nonce pt))
                    (fst (aes_gcm_encrypt key nonce pt)) = Some pt
}.

(** The operating system's random source: [os.urandom(n)] returns the next
    [n] bytes of the stream and advances it. *)
Definition entropy : Type := nat -> Z.

Definition os_urandom (n : nat) (e : entropy) : list Z * entropy :=
  (map e (seq 0 n), fun i => e (i + n)%nat).

(** A [dict] of KDF overrides, and [d.get(key, default)]. *)
Definition dict : Type := list (string * Z).

Fixpoint dict_get (d : dict) (key : string) (default : Z) : Z :=
  match d with
  | [] => default
  | (k, v) :: d' => if String.eqb k key then v else dict_get d' key default
  end.

(** Truth value of [kdf_params]: [None] and the empty dict are false. *)
Definition truthy (kdf_params : option dict) : bool :=
  match kdf_params with
  | Some (_ :: _) => true
  | _ => false
  end.

Definition params_get (kdf_params : option dict) (key : string) (default : Z)
  : Z :=
  match kdf_params with
  | Some d => if truthy kdf_params then dict_get d key default else default
  | None => default
  end.

Section WithPrimitives.
Context {P : Primitives}.

Definition derive_key_from_password (password : list Z)
    (salt : option (list Z)) (kdf_params : option dict) (e : entropy)
  : result (list Z * list Z * entropy) :=
  let iterations := params_get kdf_params "iterations" 100000 in
  let length := params_get kdf_params "length" 32 in
  let '(salt, e) :=
    match salt with
    | None => os_urandom SALT_LENGTH e
    | Some s => (s, e)
    end in
  kdf <- PBKDF2HMAC length salt iterations ;;
  pw <- Encoding.utf8_encode password ;;
  key <- kdf pw ;;
  Ok (key, salt, e).

Definition encrypt_with_aes_gcm (plaintext key : list Z) (e : entropy)
  : result (list Z * list Z * list Z * entropy) :=
  let '(nonce, e) := os_urandom NONCE_LENGTH e in
  if aes_key_ok key then
    let '(ciphertext, tag) := aes_gcm_encrypt key nonce plaintext in
    Ok (ciphertext, nonce, tag, e)
  else Err (ValueError "Invalid key size for AES").

Definition decrypt_with_aes_gcm (ciphertext key nonce tag : list Z)
  : result (list Z) :=
  if aes_key_ok key then
    if gcm_arguments_ok nonce tag then
      match aes_gcm_decrypt key nonce tag ciphertext with
      | Some plaintext => Ok plaintext
      | None => Err DecryptionError
      end
    else Err (ValueError "Invalid nonce or tag size for GCM")
  else Err (ValueError "Invalid key size for AES").

End WithPrimitives.

Definition pack_encrypted_payload (salt nonce tag ciphertext : list Z)
  : result (list Z) :=
  if negb (length salt =? SALT_LENGTH)%nat then
    Err (ValueError "Salt must be 16 bytes")
  else if negb (length nonce =? NONCE_LENGTH)%nat then
    Err (ValueError "Nonce must be 12 bytes")
  else if negb (length tag =? TAG_LENGTH)%nat then
    Err (ValueError "Tag must be 16 bytes")
  else Ok (salt ++ nonce ++ tag ++ ciphertext).

Definition unpack_encrypted_payload (payload : list Z)
  : result (list Z * list Z * list Z * list Z) :=
  if (length payload <? SALT_LENGTH + NONCE_LENGTH + TAG_LENGTH)%nat then
    Err (ValueError "Payload too short to contain required components")
  else
    let salt := slice 0 SALT_LENGTH payload in
    let nonce := slice SALT_LENGTH (SALT_LENGTH + NONCE_LENGTH) payload in
    let tag := slice (SALT_LENGTH + NONCE_LENGTH)
                     (SALT_LENGTH + NONCE_LENGTH + TAG_LENGTH) payload in
    let ciphertext := skipn (SALT_LENGTH + NONCE_LENGTH + TAG_LENGTH) payload in
    Ok (salt, nonce, tag, ciphertext).

End Crypto.

(** ** The image, as the engine sees a [PIL.Image] *)

(** [pixels[x, y]] is an [int] in a single-band image and a tuple of channel
    values otherwise. *)
Inductive pixel : Type :=
| PInt (v : Z)
| PTuple (channels : list Z).

(** [mode], [size] and the pixel buffer in row-major order: [pixels[x, y]]
    is entry [y * width + x]. *)
Record Image : Type := mkImage {
  mode : string;
  width : nat;
  height : nat;
  buffer : list pixel
}.

Definition getpixel (image : Image) (xy : nat * nat) : pixel :=
  nth (snd xy * width image + fst xy) (buffer image) (PInt 0).

(** [for y in range(height): for x in range(width)]: the coordinates in the
    order the two loops visit them. *)
Definition coords (w h : nat) : list (nat * nat) :=
  flat_map (fun y => map (fun x => (x, y)) (seq 0 w)) (seq 0 h).

Definition enumerate {A} (l : list A) : list (nat * A) :=
  combine (seq 0 (length l)) l.

(** The number of bands of the 8-bit modes the engine names. *)
Definition bands (m : string) : option nat :=
  if String.eqb m "L" then Some 1%nat
  else if String.eqb m "1" then Some 1%nat
  else if String.eqb m "LA" then Some 2%nat
  else if String.eqb m "RGB" then Some 3%nat
  else if String.eqb m "RGBA" then Some 4%nat
  else None.

Definition pixel_ok (n : nat) (p : pixel) : Prop :=
  match p with
  | PInt v => n = 1%nat /\ is_byte v
  | PTuple cs => (2 <= n)%nat /\ length cs = n /\ bytes_ok cs
  end.

(** An image as PIL hands it over: [width * height] pixels, each with the
    bands of the mode, each channel a byte. *)
Definition image_ok (image : Image) : Prop :=
  exists n, bands (mode image) = Some n
    /\ length (buffer image) = (width image * height image)%nat
    /\ Forall (pixel_ok n) (buffer image).

(** The channels of the stream that the image offers for embedding. *)
Definition usable_channels (m : string) (include_alpha : bool) : nat :=
  if String.eqb m "L" then 1
  else if String.eqb m "1" then 1
  else if String.eqb m "LA" then (if include_alpha then 2 else 1)
  else if String.eqb m "RGBA" then (if include_alpha then 4 else 3)
  else 3.

(** ** core/steganography.py *)
Module Steganography.

Definition START_TAG : list Z := text_of_string "<start_msg>".
Definition END_TAG : list Z := text_of_string "<end_msg>".
Definition TAG_LENGTH : nat := (length START_TAG + length END_TAG)%nat.

(** [struct.pack('>I', n)] and [struct.unpack('>I', b)[0]]. *)
Definition struct_pack_I (n : Z) : result (list Z) :=
  if (0 <=? n) && (n <? 2 ^ 32) then
    Ok [n / 2 ^ 24; (n / 2 ^ 16) mod 256; (n / 2 ^ 8) mod 256; n mod 256]
  else Err StructError.

Definition struct_unpack_I (b : list Z) : result Z :=
  match b with
  | [b0; b1; b2; b3] => Ok (b0 * 2 ^ 24 + b1 * 2 ^ 16 + b2 * 2 ^ 8 + b3)
  | _ => Err StructError
  end.

Definition calculate_required_bits_for_payload (payload_length_bytes : Z)
    (lsb_count : nat) : Z :=
  payload_length_bytes * 8.

(** The channel values one pixel yields. *)
Definition pixel_channels (m : string) (include_alpha : bool) (p : pixel)
  : list Z :=
  match p with
  | PInt v => [v]
  | PTuple cs =>
      map snd
        (filter
           (fun ic =>
              include_alpha
              || (negb (String.eqb m "RGBA") && negb (String.eqb m "LA"))
              || (fst ic <? length cs - 1)%nat)
           (enumerate cs))
  end.

(** The generator, as the list of the values it yields. *)
Definition _iter_channel_bytes (image : Image) (include_alpha : bool)
  : list Z :=
  flat_map
    (fun xy => pixel_channels (mode image) include_alpha (getpixel image xy))
    (coords (width image) (height image)).

(** [next(channel_iter)]. *)
Definition next (channel_iter : list Z) : result (Z * list Z) :=
  match channel_iter with
  | [] => Err StopIteration
  | c :: rest => Ok (c, rest)
  end.

(** One round of [for _ in range(num_channels)]: the state is the pixel
    built so far and the iterator. [original_pixel] is bound nowhere. *)
Definition rebuild_channel (include_alpha : bool) (num_channels : nat)
    (st : result (list Z * list Z)) (_ : nat) : result (list Z * list Z) :=
  '(pixel, channel_iter) <- st ;;
  if include_alpha || (length pixel <? num_channels - 1)%nat
     || (num_channels =? 3)%nat
  then
    '(c, channel_iter) <- next channel_iter ;;
    Ok (pixel ++ [c], channel_iter)
  else Err (NameError "original_pixel").

(** PIL saturates the values it stores in an 8-bit band. *)
Definition clip8 (v : Z) : Z :=
  if v <=? 0 then 0 else if v <? 256 then v else 255.

(** The values PIL converts to a C [long long] and to a C [int] before it
    stores them; a larger one raises [OverflowError]. *)
Definition c_long_long_ok (v : Z) : bool :=
  (- 9223372036854775808 <=? v) && (v <? 9223372036854775808).

Definition c_int_ok (v : Z) : bool :=
  (- 2147483648 <=? v) && (v <? 2147483648).

(** [pixels[x, y] = next(channel_iter)] in an image of one band. *)
Definition store_int (v : Z) : result pixel :=
  if c_long_long_ok v then Ok (PInt (clip8 v)) else Err OverflowError.

(** [pixels[x, y] = tuple(pixel)], where the tuple has three or four values.
    PIL raises [TypeError] for such a tuple in an image of one or two bands;
    in an image of three or four bands it stores the saturated values, one
    per band, with 255 for a fourth band that the tuple does not give. The
    modes outside the table of [bands] are not told apart here: the tuple is
    kept as it comes. *)
Definition store_tuple (m : string) (value : list Z) : result pixel :=
  match bands m with
  | None => Ok (PTuple value)
  | Some n =>
      if (n <? 3)%nat then Err TypeError
      else
        match value with
        | [r; g; b] =>
            if c_long_long_ok r && c_int_ok g && c_int_ok b then
              if (n =? 3)%nat then Ok (PTuple [clip8 r; clip8 g; clip8 b])
              else Ok (PTuple [clip8 r; clip8 g; clip8 b; 255])
            else Err OverflowError
        | [r; g; b; a] =>
            if c_long_long_ok r && c_int_ok g && c_int_ok b && c_int_ok a
            then
              if (n =? 3)%nat then Ok (PTuple [clip8 r; clip8 g; clip8 b])
              else Ok (PTuple [clip8 r; clip8 g; clip8 b; clip8 a])
            else Err OverflowError
        | _ => Err TypeError
        end
  end.

(** The body of the loops over [y] and [x]: the pixel that is stored at
    [pixels[x, y]], an [int] in the modes L and 1 and a tuple otherwise. *)
Definition rebuild_pixel (m : string) (include_alpha : bool)
    (channel_iter : list Z) : result (pixel * list Z) :=
  if String.eqb m "L" || String.eqb m "1" then
    '(c, channel_iter) <- next channel_iter ;;
    stored <- store_int c ;;
    Ok (stored, channel_iter)
  else
    let num_channels := if String.eqb m "RGBA" then 4%nat else 3%nat in
    '(pixel, channel_iter) <-
      fold_left (rebuild_channel include_alpha num_channels)
                (seq 0 num_channels) (Ok ([], channel_iter)) ;;
    stored <- store_tuple m pixel ;;
    Ok (stored, channel_iter).

(** One round of the loops over [y] and [x]: the state is the buffer of the
    new image, filled in the order of the visit, and the iterator. *)
Definition rebuild_at (m : string) (include_alpha : bool)
    (st : result (list pixel * list Z)) (_ : nat * nat)
  : result (list pixel * list Z) :=
  '(buf, channel_iter) <- st ;;
  '(p, channel_iter) <- rebuild_pixel m include_alpha channel_iter ;;
  Ok (buf ++ [p], channel_iter).

Definition _channels_to_image (image : Image) (modified_channels : list Z)
    (include_alpha : bool) : result Image :=
  '(buf, _) <-
    fold_left (rebuild_at (mode image) include_alpha)
              (coords (width image) (height image))
              (Ok ([], modified_channels)) ;;
  Ok (mkImage (mode image) (width image) (height image) buf).

(** One round of [for i in range(lsb_count)]: the state is
    [payload_value] and [bit_index]. *)
Definition take_bit (payload_bits : list bool) (st : Z * nat) (i : nat)
  : Z * nat :=
  let '(payload_value, bit_index) := st in
  if (bit_index <? length payload_bits)%nat then
    (Z.lor payload_value
           (Z.shiftl (Z.b2z (nth bit_index payload_bits false)) (Z.of_nat i)),
     S bit_index)
  else st.

(** One round of [for channel_byte in channel_iter]: the state is
    [modified_channels] and [bit_index]. *)
Definition embed_channel (lsb_count : nat) (payload_bits : list bool)
    (clear_mask : Z) (st : list Z * nat) (channel_byte : Z) : list Z * nat :=
  let '(modified_channels, bit_index) := st in
  if (bit_index <? length payload_bits)%nat then
    let cleaned_byte := Z.land channel_byte clear_mask in
    let '(payload_value, bit_index) :=
      fold_left (take_bit payload_bits) (seq 0 lsb_count) (0, bit_index) in
    let modified_byte := Z.lor cleaned_byte payload_value in
    (modified_channels ++ [modified_byte], bit_index)
  else (modified_channels ++ [channel_byte], bit_index).

(** Lines 52 to 77: the stream of modified channel bytes. *)
Definition modified_stream (lsb_count : nat) (payload_with_header : list Z)
    (channels : list Z) : list Z :=
  let payload_bits := Encoding.bytes_to_bits payload_with_header in
  let lsb_mask := Z.shiftl 1 (Z.of_nat lsb_count) - 1 in
  let clear_mask := Z.lxor 0xFF lsb_mask in
  fst (fold_left (embed_channel lsb_count payload_bits clear_mask)
                 channels ([], 0%nat)).

(** Line 42: [struct.pack('>I', len(payload)) + payload]. *)
Definition with_header (payload : list Z) : result (list Z) :=
  header <- struct_pack_I (Z.of_nat (length payload)) ;;
  Ok (header ++ payload).

Definition embed_payload_into_image (image : Image) (payload : list Z)
    (include_alpha : bool) (lsb_count : nat) : result Image :=
  payload_with_header <- with_header payload ;;
  let required_bits :=
    calculate_required_bits_for_payload
      (Z.of_nat (length payload_with_header)) lsb_count in
  let available_bits :=
    Z.of_nat (width image) * Z.of_nat (height image)
    * (if include_alpha then 3 else 4) * Z.of_nat lsb_count in
  if required_bits >? available_bits then
    Err (CapacityError required_bits available_bits)
  else
    let modified_channels :=
      modified_stream lsb_count payload_with_header
                      (_iter_channel_bytes image include_alpha) in
    _channels_to_image image modified_channels include_alpha.

Definition extract_payload_from_image (image : Image) (include_alpha : bool)
    (lsb_count : nat) : result (list Z) :=
  let extracted_bits :=
    fold_left
      (fun bits channel_byte =>
         fold_left
           (fun bits i => bits ++ [Z.testbit channel_byte (Z.of_nat i)])
           (seq 0 lsb_count) bits)
      (_iter_channel_bytes image include_alpha) [] in
  let payload_with_header := Encoding.bits_to_bytes extracted_bits in
  if (length payload_with_header <? 4)%nat then
    Err (FormatError "Payload header missing or corrupted")
  else
    payload_length <- struct_unpack_I (slice 0 4 payload_with_header) ;;
    if Z.of_nat (length payload_with_header) <? 4 + payload_length then
      Err (FormatError "Payload length mismatch")
    else
      Ok (slice 4 (4 + Z.to_nat payload_length) payload_with_header).

Section WithPrimitives.
Context {P : Crypto.Primitives}.

Definition build_payload_from_text (text password : list Z)
    (kdf_params : option Crypto.dict) (e : Crypto.entropy)
  : result (list Z * Crypto.entropy) :=
  let tagged_text := START_TAG ++ text ++ END_TAG in
  let shift := Z.of_nat (length password) in
  let rotated_text := Encoding.rotate_letters tagged_text shift in
  utf8_bytes <- Encoding.text_to_bytes rotated_text ;;
  '(key, salt, e) <-
    Crypto.derive_key_from_password password None kdf_params e ;;
  '(ciphertext, nonce, tag, e) <-
    Crypto.encrypt_with_aes_gcm utf8_bytes key e ;;
  packed <- Crypto.pack_encrypted_payload salt nonce tag ciphertext ;;
  Ok (packed, e).

Definition extract_text_from_payload (payload password : list Z)
    (e : Crypto.entropy) : result (list Z) :=
  '(salt, nonce, tag, ciphertext) <-
    Crypto.unpack_encrypted_payload payload ;;
  '(key, _, _) <-
    Crypto.derive_key_from_password password (Some salt) None e ;;
  decrypted_bytes <- Crypto.decrypt_with_aes_gcm ciphertext key nonce tag ;;
  decoded_text <- Encoding.bytes_to_text decrypted_bytes ;;
  let shift := - Z.of_nat (length password) in
  let derotated_text := Encoding.rotate_letters decoded_text shift in
  if startswith derotated_text START_TAG && endswith derotated_text END_TAG
  then
    Ok (slice (length START_TAG)
              (length derotated_text - length END_TAG) derotated_text)
  else Err (FormatError "Payload tags are missing or corrupted").

End WithPrimitives.

End Steganography.

(** ** The operations again, in the words of the specification

    These definitions follow the specification's description of each
    operation; the theorems below relate them to the loops above. *)
Module Reference.

(** "expands each byte into 8 bits, most-significant bit first". *)
Definition byte_bits (byte : Z) : list bool :=
  [Z.testbit byte 7; Z.testbit byte 6; Z.testbit byte 5; Z.testbit byte 4;
   Z.testbit byte 3; Z.testbit byte 2; Z.testbit byte 1; Z.testbit byte 0].

Definition expand (data : list Z) : list bool := flat_map byte_bits data.

(** The number a group of bits denotes, most-significant bit first. *)
Definition msb_value (bits : list bool) : Z :=
  fold_left (fun v bit => 2 * v + Z.b2z bit) bits 0.

(** "packs bits 8-at-a-time into bytes, most-significant bit first; any
    trailing incomplete group of fewer than 8 bits is silently dropped". *)
Fixpoint group8 (bits : list bool) : list Z :=
  match bits with
  | b7 :: b6 :: b5 :: b4 :: b3 :: b2 :: b1 :: b0 :: rest =>
      msb_value [b7; b6; b5; b4; b3; b2; b1; b0] :: group8 rest
  | _ => []
  end.

(** "shift it circularly within its 26-letter alphabet". *)
Definition is_letter (c : Z) : bool :=
  ((0x61 <=? c) && (c <=? 0x7A)) || ((0x41 <=? c) && (c <=? 0x5A)).

(** "the low [lsbCount] bits of every channel byte in stream order",
    least-significant first within a byte. *)
Definition low_bits (lsb_count : nat) (channel_byte : Z) : list bool :=
  map (fun i => Z.testbit channel_byte (Z.of_nat i)) (seq 0 lsb_count).

Definition stream_bits (lsb_count : nat) (channels : list Z) : list bool :=
  flat_map (low_bits lsb_count) channels.

(** The number a group of payload bits denotes when the first bit of the
    group lands on bit [k] of the channel byte, the next on bit [k + 1]. *)
Fixpoint lsb_value (k : nat) (group : list bool) : Z :=
  match group with
  | [] => 0
  | bit :: rest =>
      Z.lor (Z.shiftl (Z.b2z bit) (Z.of_nat k)) (lsb_value (S k) rest)
  end.

(** "clears the low [lsbCount] bits of that byte and ORs in the next
    [lsbCount] payload bits (least-significant-first within the group)". *)
Definition embedded (lsb_count : nat) (channel_byte : Z) (group : list bool)
  : Z :=
  Z.lor (Z.land channel_byte (Z.lxor 0xFF (2 ^ Z.of_nat lsb_count - 1)))
        (lsb_value 0 group).

(** "for each channel byte position in stream order, if bits remain,
    clears the low [lsbCount] bits of that byte and ORs in the next
    [lsbCount] payload bits; once bits are exhausted, remaining channel
    bytes pass through unchanged". *)
Fixpoint embed_bits (lsb_count : nat) (bits : list bool) (channels : list Z)
  : list Z :=
  match channels with
  | [] => []
  | c :: cs =>
      match bits with
      | [] => c :: embed_bits lsb_count [] cs
      | _ =>
          embedded lsb_count c (firstn lsb_count bits)
          :: embed_bits lsb_count (skipn lsb_count bits) cs
      end
  end.

(** What embedding may do to one channel byte: the bits above the low
    [lsb_count] bits stay, so the value moves by less than
    [2 ^ lsb_count]. *)
Definition confined (lsb_count : nat) (input output : Z) : Prop :=
  Z.shiftr output (Z.of_nat lsb_count) = Z.shiftr input (Z.of_nat lsb_count)
  /\ Z.abs (output - input) <= 2 ^ Z.of_nat lsb_count - 1.

(** "rebuild an image from a modified stream": the pixel that a group of
    channel values makes, and the buffer of [n] pixels that a stream makes
    when every pixel takes [k] values. *)
Definition pixel_of (m : string) (chunk : list Z) : pixel :=
  if String.eqb m "L" || String.eqb m "1" then PInt (hd 0 chunk)
  else PTuple chunk.

Fixpoint regroup (m : string) (k n : nat) (channels : list Z) : list pixel :=
  match n with
  | O => []
  | S n' =>
      pixel_of m (firstn k channels) :: regroup m k n' (skipn k channels)
  end.

(** The channel values that [_channels_to_image] reads for one pixel. *)
Definition per_pixel (m : string) : nat :=
  if String.eqb m "L" || String.eqb m "1" then 1
  else if String.eqb m "RGBA" then 4 else 3.

(** The images on which the rebuild reads the stream the way the generator
    wrote it: grayscale, RGB, and RGBA with the alpha channel included. *)
Definition supported (m : string) (include_alpha : bool) : Prop :=
  m = "L"%string \/ m = "RGB"%string
  \/ (m = "RGBA"%string /\ include_alpha = true).


(** A text that [str.encode("utf-8")] accepts. *)
Definition encodable (t : list Z) : Prop :=
  Forall (fun c => Encoding.scalar c = true) t.

(** The exceptions that the rebuild of the image can raise. *)
Definition rebuild_error (e : error) : Prop :=
  e = NameError "original_pixel" \/ e = StopIteration \/ e = TypeError
  \/ e = OverflowError.

(** "a big-endian length header". *)
Definition big_endian (b : list Z) : Z :=
  fold_left (fun acc byte => acc * 256 + byte) b 0.

(** "FramedPayload := LengthHeader(4 bytes) || Payload", with
    "LengthHeader := uint32, equals len(Payload)". *)
Definition framed (b : list Z) : Prop :=
  (4 <= length b)%nat
  /\ big_endian (firstn 4 b) = Z.of_nat (length (skipn 4 b)).

End Reference.

(** ** Instances for running the engine

    A degenerate instance of the primitives (constant key, identity cipher,
    constant tag): it satisfies [PrimitivesLaws], so the laws are consistent,
    and it lets the engine run on concrete inputs. *)
Module Examples.

Definition null_tag : list Z := repeat 0 Crypto.TAG_LENGTH.

Definition null_primitives : Crypto.Primitives := {|
  Crypto.PBKDF2HMAC := fun len _ iterations =>
    if (0 <? len) && (0 <? iterations)
    then Ok (fun _ => Ok (repeat 0 (Z.to_nat len)))
    else Err (ValueError "Invalid PBKDF2 arguments");
  Crypto.aes_gcm_encrypt := fun _ _ pt => (pt, null_tag);
  Crypto.aes_gcm_decrypt := fun _ _ tag ct =>
    if list_eqb tag null_tag then Some ct else None
|}.

(** An entropy source that yields zero bytes only. *)
Definition zero_entropy : Crypto.entropy := fun _ => 0.

(** Single-row images of [n] equal pixels. *)
Definition rgb_row (n : nat) : Image :=
  mkImage "RGB" n 1 (repeat (PTuple [100; 150; 200]) n).

Definition rgba_row (n : nat) : Image :=
  mkImage "RGBA" n 1 (repeat (PTuple [100; 150; 200; 255]) n).

Definition gray_row (n : nat) : Image :=
  mkImage "L" n 1 (repeat (PInt 77) n).

(** A 20 by 20 RGBA image. *)
Definition rgba_square : Image :=
  mkImage "RGBA" 20 20 (repeat (PTuple [100; 150; 200; 255]) 400).

(** A 20 by 10 RGB image. *)
Definition rgb_rect : Image :=
  mkImage "RGB" 20 10 (repeat (PTuple [50; 100; 150]) 200).

(** A grayscale row whose low bits spell the header [0 0 0 1] and the
    byte [65]. *)
Definition stego_row : Image :=
  mkImage "L" 40 1
    (map (fun bit => PInt (76 + Z.b2z bit))
         (Encoding.bytes_to_bits [0; 0; 0; 1; 65])).

(** The message and the password of the integration test. *)
Definition hello : list Z :=
  text_of_string "Hello world! " ++ [0xE1; 0xE9; 0xED; 0xF3; 0xFA].
Definition secret123 : list Z := text_of_string "secret123".

End Examples.

(** ** core/image_io.py: channel counts and capacity *)
Module ImageIO.

(** [len(image.getbands())] for the modes of PIL. *)
Definition getbands_length (m : string) : Z :=
  if String.eqb m "LA" || String.eqb m "PA" || String.eqb m "La" then 2
  else if String.eqb m "RGB" || String.eqb m "YCbCr" || String.eqb m "LAB"
          || String.eqb m "HSV" then 3
  else if String.eqb m "RGBA" || String.eqb m "CMYK" || String.eqb m "RGBX"
          || String.eqb m "RGBa" then 4
  else 1.

Definition is_grayscale (image : Image) : bool :=
  String.eqb (mode image) "L" || String.eqb (mode image) "LA"
  || String.eqb (mode image) "1".

Definition get_num_channels (image : Image) (include_alpha : bool) : Z :=
  let mode := mode image in
  if String.eqb mode "L" || String.eqb mode "1" then 1
  else if String.eqb mode "RGB" then 3
  else if String.eqb mode "RGBA" then (if include_alpha then 4 else 3)
  else if String.eqb mode "CMYK" then 4
  else if String.eqb mode "YCbCr" then 3
  else if String.eqb mode "LAB" then 3
  else if String.eqb mode "HSV" then 3
  else if include_alpha then getbands_length mode
  else getbands_length mode - 1.

Definition get_capacity_bits (image : Image) (include_alpha : bool)
    (lsb_count : nat) : Z :=
  let num_channels := get_num_channels image include_alpha in
  Z.of_nat (width image) * Z.of_nat (height image) * num_channels
  * Z.of_nat lsb_count.

End ImageIO.

(** * Properties *)

(** * Facts about lists and loops *)
Section Loops.
Context {A B : Type}.

(** A loop that appends one value per round builds a [map]. *)
Lemma fold_left_snoc_map (f : A -> B) (l : list A) (acc : list B) :
  fold_left (fun acc a => acc ++ [f a]) l acc = acc ++ map f l.
Proof.
  revert acc; induction l as [|a l IH]; intros acc; cbn.
  - now rewrite app_nil_r.
  - rewrite IH, <- app_assoc. reflexivity.
Qed.

(** A loop that appends a block per round builds a [flat_map]. *)
Lemma fold_left_app_flat_map (g : A -> list B) (step : list B -> A -> list B)
      (l : list A) (acc : list B) :
  (forall acc a, step acc a = acc ++ g a) ->
  fold_left step l acc = acc ++ flat_map g l.
Proof.
  intros Hstep. revert acc; induction l as [|a l IH]; intros acc; cbn.
  - now rewrite app_nil_r.
  - rewrite IH, Hstep, <- app_assoc. reflexivity.
Qed.
End Loops.

Import Encoding Reference.

Lemma bytes_to_bits_expand data : bytes_to_bits data = expand data.
Proof.
  unfold bytes_to_bits, expand.
  rewrite (fold_left_app_flat_map byte_bits); [reflexivity|].
  intros acc a. unfold range_7_down, byte_bits.
  rewrite fold_left_snoc_map. reflexivity.
Qed.

Lemma length_expand data : length (expand data) = (8 * length data)%nat.
Proof.
  unfold expand. induction data as [|b data IH]; [reflexivity|].
  cbn [flat_map]. rewrite length_app, IH. cbn [byte_bits length]. lia.
Qed.

(** Eight rounds of the packing loop from an empty group. *)
Lemma bits_to_bytes_step8 b7 b6 b5 b4 b3 b2 b1 b0 rest acc :
  fold_left bits_to_bytes_step
            (b7 :: b6 :: b5 :: b4 :: b3 :: b2 :: b1 :: b0 :: rest)
            (mkPacker acc 0 0)
  = fold_left bits_to_bytes_step rest
      (mkPacker (acc ++ [msb_value [b7; b6; b5; b4; b3; b2; b1; b0]]) 0 0).
Proof.
  destruct b7, b6, b5, b4, b3, b2, b1, b0; reflexivity.
Qed.

(** Fewer than eight rounds leave the byte array as it is. *)
Lemma bits_to_bytes_short bits acc :
  (length bits < 8)%nat ->
  byte_array (fold_left bits_to_bytes_step bits (mkPacker acc 0 0)) = acc.
Proof.
  intros H.
  do 8 (destruct bits as [|? bits]; [reflexivity|]).
  cbn [length] in H. lia.
Qed.

Lemma group8_short bits : (length bits < 8)%nat -> group8 bits = [].
Proof.
  intros H.
  do 8 (destruct bits as [|? bits]; [reflexivity|]).
  cbn [length] in H. lia.
Qed.

Lemma bits_to_bytes_from bits : forall acc,
  byte_array (fold_left bits_to_bytes_step bits (mkPacker acc 0 0))
  = acc ++ group8 bits.
Proof.
  remember (length bits) as n eqn:Hn.
  revert bits Hn. induction n as [n IH] using lt_wf_ind. intros bits Hn acc.
  destruct (Nat.lt_ge_cases (length bits) 8) as [Hlt|Hge].
  - rewrite bits_to_bytes_short, group8_short by assumption.
    now rewrite app_nil_r.
  - do 8 (destruct bits as [|? bits]; [cbn [length] in Hge; lia|]).
    rewrite bits_to_bytes_step8.
    rewrite (IH (length bits)); [|subst n; cbn [length]; lia|reflexivity].
    cbn [group8]. rewrite <- app_assoc. reflexivity.
Qed.

Lemma bits_to_bytes_group8 bits : bits_to_bytes bits = group8 bits.
Proof. unfold bits_to_bytes. apply bits_to_bytes_from. Qed.

(** A byte is one of the 256 values of [seq]. *)
Lemma is_byte_In b : is_byte b -> In b (map Z.of_nat (seq 0 256)).
Proof.
  intros [H0 H1]. apply in_map_iff. exists (Z.to_nat b). split; [lia|].
  apply in_seq. lia.
Qed.

(** A property checked on the 256 bytes holds of every byte. *)
Lemma byte_cases (f : Z -> bool) :
  forallb f (map Z.of_nat (seq 0 256)) = true ->
  forall b, is_byte b -> f b = true.
Proof.
  intros Hall b Hb. rewrite forallb_forall in Hall. apply Hall, is_byte_In, Hb.
Qed.

Lemma msb_value_byte_bits b : is_byte b -> msb_value (byte_bits b) = b.
Proof.
  intros Hb. apply Z.eqb_eq.
  apply (byte_cases (fun b => msb_value (byte_bits b) =? b)); [|exact Hb].
  vm_compute. reflexivity.
Qed.

Lemma group8_expand_app data tail :
  bytes_ok data -> group8 (expand data ++ tail) = data ++ group8 tail.
Proof.
  unfold expand. induction 1 as [|b data Hb Hdata IH]; [reflexivity|].
  cbn [flat_map]. rewrite <- app_assoc.
  change (byte_bits b ++ flat_map byte_bits data ++ tail)
    with (Z.testbit b 7 :: Z.testbit b 6 :: Z.testbit b 5 :: Z.testbit b 4
          :: Z.testbit b 3 :: Z.testbit b 2 :: Z.testbit b 1 :: Z.testbit b 0
          :: (flat_map byte_bits data ++ tail)).
  cbn [group8]. rewrite IH.
  change [Z.testbit b 7; Z.testbit b 6; Z.testbit b 5; Z.testbit b 4;
          Z.testbit b 3; Z.testbit b 2; Z.testbit b 1; Z.testbit b 0]
    with (byte_bits b).
  rewrite msb_value_byte_bits by assumption. reflexivity.
Qed.

Lemma length_group8 bits : length (group8 bits) = (length bits / 8)%nat.
Proof.
  remember (length bits) as n eqn:Hn.
  revert bits Hn. induction n as [n IH] using lt_wf_ind. intros bits Hn.
  destruct (Nat.lt_ge_cases n 8) as [Hlt|Hge].
  - rewrite group8_short by lia. now rewrite Nat.div_small.
  - subst n. do 8 (destruct bits as [|? bits]; [cbn [length] in Hge; lia|]).
    cbn [group8 length]. rewrite (IH (length bits)); [|cbn [length]; lia|reflexivity].
    replace (S (S (S (S (S (S (S (S (length bits)))))))))
      with (length bits + 1 * 8)%nat by lia.
    rewrite Nat.div_add by lia. lia.
Qed.

Lemma msb_value_byte b7 b6 b5 b4 b3 b2 b1 b0 :
  is_byte (msb_value [b7; b6; b5; b4; b3; b2; b1; b0]).
Proof.
  destruct b7, b6, b5, b4, b3, b2, b1, b0; vm_compute; split; congruence.
Qed.

Lemma group8_bytes bits : bytes_ok (group8 bits).
Proof.
  remember (length bits) as n eqn:Hn.
  revert bits Hn. induction n as [n IH] using lt_wf_ind. intros bits Hn.
  destruct (Nat.lt_ge_cases n 8) as [Hlt|Hge].
  - rewrite group8_short by lia. constructor.
  - subst n. do 8 (destruct bits as [|? bits]; [cbn [length] in Hge; lia|]).
    cbn [group8]. constructor.
    + apply msb_value_byte.
    + apply (IH (length bits)); [cbn [length]; lia|reflexivity].
Qed.

(** C9. Packing the bits of a byte sequence gives the sequence back:
    [bits_to_bytes(bytes_to_bits(b)) == b]. [bytes_to_bits] expands each byte
    into its 8 bits, most-significant first, so its output has [8 * len(b)]
    bits; [bits_to_bytes] packs 8 bits at a time, most-significant first, and
    drops a trailing group of fewer than 8 bits. *)
Theorem bit_codec_round_trip (b : list Z) :
  bytes_ok b ->
  bits_to_bytes (bytes_to_bits b) = b
  /\ bytes_to_bits b = flat_map byte_bits b
  /\ length (bytes_to_bits b) = (8 * length b)%nat
  /\ (forall bits, bits_to_bytes bits = group8 bits)
  /\ (forall tail, (length tail < 8)%nat ->
        bits_to_bytes (bytes_to_bits b ++ tail) = b).
Proof.
  intros Hb. rewrite bytes_to_bits_expand.
  split; [|split; [|split; [|split]]].
  - rewrite bits_to_bytes_group8.
    rewrite <- (app_nil_r (expand b)), group8_expand_app by assumption.
    cbn [group8]. apply app_nil_r.
  - reflexivity.
  - apply length_expand.
  - apply bits_to_bytes_group8.
  - intros tail Htail. rewrite bits_to_bytes_group8.
    rewrite group8_expand_app, group8_short by assumption. apply app_nil_r.
Qed.

Lemma bit_codec_round_trip_witness :
  bits_to_bytes (bytes_to_bits [0; 65; 200; 255]) = [0; 65; 200; 255].
Proof.
  refine (proj1 (bit_codec_round_trip [0; 65; 200; 255] _)).
  repeat constructor; unfold is_byte; lia.
Defined.

(** ** The rotation cipher *)

Lemma rotate_letters_map text shift :
  rotate_letters text shift = map (rotate_char shift) text.
Proof. unfold rotate_letters. apply (fold_left_snoc_map (rotate_char shift)). Qed.

Lemma rotate_char_not_letter shift c :
  is_letter c = false -> rotate_char shift c = c.
Proof.
  unfold is_letter, rotate_char. intros H.
  apply orb_false_elim in H as [-> ->]. reflexivity.
Qed.

(** A rotated letter is a letter of the same case. *)
Lemma rotate_char_lower shift c :
  0x61 <= c <= 0x7A ->
  rotate_char shift c = (c - 0x61 + shift) mod 26 + 0x61.
Proof.
  intros Hc. unfold rotate_char.
  replace ((0x61 <=? c) && (c <=? 0x7A)) with true
    by (symmetry; apply andb_true_intro; split; apply Z.leb_le; lia).
  pose proof (Z.mod_pos_bound (c - 0x61 + shift) 26 ltac:(lia)) as Hm.
  destruct (Z.ltb_spec ((c - 0x61 + shift) mod 26) 0); [lia|reflexivity].
Qed.

Lemma rotate_char_upper shift c :
  0x41 <= c <= 0x5A ->
  rotate_char shift c = (c - 0x41 + shift) mod 26 + 0x41.
Proof.
  intros Hc. unfold rotate_char.
  replace ((0x61 <=? c) && (c <=? 0x7A)) with false
    by (symmetry; apply andb_false_iff; left; apply Z.leb_gt; lia).
  replace ((0x41 <=? c) && (c <=? 0x5A)) with true
    by (symmetry; apply andb_true_intro; split; apply Z.leb_le; lia).
  pose proof (Z.mod_pos_bound (c - 0x41 + shift) 26 ltac:(lia)) as Hm.
  destruct (Z.ltb_spec ((c - 0x41 + shift) mod 26) 0); [lia|reflexivity].
Qed.

Lemma is_letter_cases c :
  (0x61 <= c <= 0x7A /\ is_letter c = true)
  \/ (0x41 <= c <= 0x5A /\ is_letter c = true)
  \/ is_letter c = false.
Proof.
  unfold is_letter.
  destruct (Z.leb_spec 0x61 c), (Z.leb_spec c 0x7A),
           (Z.leb_spec 0x41 c), (Z.leb_spec c 0x5A); cbn; auto; lia.
Qed.

Lemma rotate_char_inverse shift c :
  rotate_char (- shift) (rotate_char shift c) = c.
Proof.
  destruct (is_letter_cases c) as [[Hc _]|[[Hc _]|Hc]].
  - rewrite (rotate_char_lower shift c Hc).
    pose proof (Z.mod_pos_bound (c - 0x61 + shift) 26 ltac:(lia)) as Hm.
    rewrite rotate_char_lower by lia.
    replace ((c - 97 + shift) mod 26 + 97 - 97 + - shift)
      with ((c - 97 + shift) mod 26 - shift) by lia.
    rewrite Zminus_mod_idemp_l.
    replace (c - 97 + shift - shift) with (c - 97) by lia.
    rewrite Z.mod_small; lia.
  - rewrite (rotate_char_upper shift c Hc).
    pose proof (Z.mod_pos_bound (c - 0x41 + shift) 26 ltac:(lia)) as Hm.
    rewrite rotate_char_upper by lia.
    replace ((c - 65 + shift) mod 26 + 65 - 65 + - shift)
      with ((c - 65 + shift) mod 26 - shift) by lia.
    rewrite Zminus_mod_idemp_l.
    replace (c - 65 + shift - shift) with (c - 65) by lia.
    rewrite Z.mod_small; lia.
  - rewrite (rotate_char_not_letter shift c Hc).
    apply rotate_char_not_letter, Hc.
Qed.

Lemma rotate_letters_inverse text shift :
  rotate_letters (rotate_letters text shift) (- shift) = text.
Proof.
  rewrite !rotate_letters_map, map_map.
  induction text as [|c text IH]; [reflexivity|].
  cbn [map]. now rewrite rotate_char_inverse, IH.
Qed.

(** C8. Rotating by [s] and then by [-s] gives the text back, for every text
    and every integer shift, negative ones included; a character that is not
    an ASCII letter (digit, punctuation, accented or other non-ASCII letter)
    stays where it is and as it is under every shift. *)
Theorem rotation_identity (t : list Z) (s : Z) :
  rotate_letters (rotate_letters t s) (- s) = t
  /\ (forall before c after,
        is_letter c = false ->
        rotate_letters (before ++ c :: after) s
        = rotate_letters before s ++ c :: rotate_letters after s).
Proof.
  split.
  - apply rotate_letters_inverse.
  - intros before c after Hc.
    rewrite !rotate_letters_map, map_app. cbn [map].
    now rewrite rotate_char_not_letter.
Qed.

Lemma rotation_identity_witness :
  rotate_letters (rotate_letters Examples.hello (-35)) (- -35) = Examples.hello
  /\ rotate_letters (text_of_string "ab" ++ 0xE9 :: text_of_string "cd") 3
     = rotate_letters (text_of_string "ab") 3
       ++ 0xE9 :: rotate_letters (text_of_string "cd") 3.
Proof.
  split.
  - exact (proj1 (rotation_identity Examples.hello (-35))).
  - apply (proj2 (rotation_identity [] 3)). reflexivity.
Defined.

(** ** Packing and unpacking the encrypted payload *)

Lemma slice_0 {A} n (l : list A) : slice 0 n l = firstn n l.
Proof. unfold slice. now rewrite Nat.sub_0_r. Qed.

Lemma firstn_app_exact {A} (l1 l2 : list A) n :
  length l1 = n -> firstn n (l1 ++ l2) = l1.
Proof.
  intros <-. rewrite firstn_app, Nat.sub_diag, firstn_all. cbn.
  apply app_nil_r.
Qed.

Lemma skipn_app_exact {A} (l1 l2 : list A) n :
  length l1 = n -> skipn n (l1 ++ l2) = l2.
Proof.
  intros <-. rewrite skipn_app, Nat.sub_diag, skipn_all. reflexivity.
Qed.

Lemma pack_ok salt nonce tag ciphertext :
  length salt = Crypto.SALT_LENGTH ->
  length nonce = Crypto.NONCE_LENGTH ->
  length tag = Crypto.TAG_LENGTH ->
  Crypto.pack_encrypted_payload salt nonce tag ciphertext
  = Ok (salt ++ nonce ++ tag ++ ciphertext).
Proof.
  intros Hs Hn Ht. unfold Crypto.pack_encrypted_payload.
  rewrite Hs, Hn, Ht, !Nat.eqb_refl. reflexivity.
Qed.

Lemma unpack_ok payload :
  (44 <= length payload)%nat ->
  Crypto.unpack_encrypted_payload payload
  = Ok (firstn 16 payload, firstn 12 (skipn 16 payload),
        firstn 16 (skipn 28 payload), skipn 44 payload).
Proof.
  intros H. unfold Crypto.unpack_encrypted_payload.
  change (Crypto.SALT_LENGTH + Crypto.NONCE_LENGTH + Crypto.TAG_LENGTH)%nat
    with 44%nat.
  destruct (Nat.ltb_spec (length payload) 44); [lia|].
  reflexivity.
Qed.

Lemma unpack_pack salt nonce tag ciphertext :
  length salt = Crypto.SALT_LENGTH ->
  length nonce = Crypto.NONCE_LENGTH ->
  length tag = Crypto.TAG_LENGTH ->
  Crypto.unpack_encrypted_payload (salt ++ nonce ++ tag ++ ciphertext)
  = Ok (salt, nonce, tag, ciphertext).
Proof.
  intros Hs Hn Ht. rewrite unpack_ok.
  2:{ rewrite !length_app, Hs, Hn, Ht. cbv [Crypto.SALT_LENGTH
        Crypto.NONCE_LENGTH Crypto.TAG_LENGTH]. lia. }
  rewrite (firstn_app_exact salt) by exact Hs.
  rewrite (skipn_app_exact salt) by exact Hs.
  rewrite (firstn_app_exact nonce) by exact Hn.
  replace (skipn 28 (salt ++ nonce ++ tag ++ ciphertext))
    with (tag ++ ciphertext).
  2:{ rewrite app_assoc. symmetry. apply skipn_app_exact.
      rewrite length_app, Hs, Hn. reflexivity. }
  replace (skipn 44 (salt ++ nonce ++ tag ++ ciphertext)) with ciphertext.
  2:{ rewrite 2!app_assoc. symmetry. apply skipn_app_exact.
      rewrite !length_app, Hs, Hn, Ht. reflexivity. }
  rewrite (firstn_app_exact tag) by exact Ht. reflexivity.
Qed.

(** C7. Unpacking a packed payload returns the four components, for a salt
    of 16 bytes, a nonce of 12 bytes, a tag of 16 bytes and any ciphertext;
    [pack_encrypted_payload] raises [ValueError] when the salt, the nonce or
    the tag has another length; [unpack_encrypted_payload] raises
    [ValueError] on every payload of fewer than 44 bytes and otherwise
    returns the slices [0:16], [16:28], [28:44] and [44:]. *)
Theorem pack_unpack_round_trip (salt nonce tag ciphertext payload : list Z) :
  (length salt = 16%nat -> length nonce = 12%nat -> length tag = 16%nat ->
   exists packed,
     Crypto.pack_encrypted_payload salt nonce tag ciphertext = Ok packed
     /\ packed = salt ++ nonce ++ tag ++ ciphertext
     /\ Crypto.unpack_encrypted_payload packed
        = Ok (salt, nonce, tag, ciphertext))
  /\ (length salt <> 16%nat \/ length nonce <> 12%nat \/ length tag <> 16%nat ->
      exists message,
        Crypto.pack_encrypted_payload salt nonce tag ciphertext
        = Err (ValueError message))
  /\ ((length payload < 44)%nat ->
      exists message,
        Crypto.unpack_encrypted_payload payload = Err (ValueError message))
  /\ ((44 <= length payload)%nat ->
      Crypto.unpack_encrypted_payload payload
      = Ok (slice 0 16 payload, slice 16 28 payload, slice 28 44 payload,
            skipn 44 payload)).
Proof.
  split; [|split; [|split]].
  - intros Hs Hn Ht. exists (salt ++ nonce ++ tag ++ ciphertext).
    split; [now apply pack_ok|]. split; [reflexivity|].
    now apply unpack_pack.
  - intros H. unfold Crypto.pack_encrypted_payload.
    change Crypto.SALT_LENGTH with 16%nat.
    change Crypto.NONCE_LENGTH with 12%nat.
    change Crypto.TAG_LENGTH with 16%nat.
    destruct (Nat.eqb_spec (length salt) 16); cbn [negb]; [|eauto].
    destruct (Nat.eqb_spec (length nonce) 12); cbn [negb]; [|eauto].
    destruct (Nat.eqb_spec (length tag) 16); cbn [negb]; [|eauto].
    exfalso. tauto.
  - intros H. unfold Crypto.unpack_encrypted_payload.
    change (Crypto.SALT_LENGTH + Crypto.NONCE_LENGTH + Crypto.TAG_LENGTH)%nat
      with 44%nat.
    destruct (Nat.ltb_spec (length payload) 44); [eauto|lia].
  - intros H. rewrite unpack_ok by exact H. reflexivity.
Qed.

Lemma pack_unpack_round_trip_witness :
  exists packed,
    Crypto.pack_encrypted_payload (repeat 1 16) (repeat 2 12) (repeat 3 16)
                                  [7; 8; 9] = Ok packed
    /\ packed = repeat 1 16 ++ repeat 2 12 ++ repeat 3 16 ++ [7; 8; 9]
    /\ Crypto.unpack_encrypted_payload packed
       = Ok (repeat 1 16, repeat 2 12, repeat 3 16, [7; 8; 9]).
Proof.
  exact (proj1 (pack_unpack_round_trip (repeat 1 16) (repeat 2 12)
                  (repeat 3 16) [7; 8; 9] [])
               eq_refl eq_refl eq_refl).
Defined.

(** ** Extraction *)
Import Steganography.

Lemma extracted_bits_stream_bits lsb_count channels :
  fold_left
    (fun bits channel_byte =>
       fold_left (fun bits i => bits ++ [Z.testbit channel_byte (Z.of_nat i)])
                 (seq 0 lsb_count) bits)
    channels []
  = stream_bits lsb_count channels.
Proof.
  unfold stream_bits.
  rewrite (fold_left_app_flat_map (low_bits lsb_count)); [reflexivity|].
  intros acc c. unfold low_bits.
  apply (fold_left_snoc_map (fun i => Z.testbit c (Z.of_nat i))).
Qed.

Lemma struct_unpack_I_big_endian b :
  length b = 4%nat -> struct_unpack_I b = Ok (big_endian b).
Proof.
  intros H. do 4 (destruct b as [|? b]; [discriminate|]).
  destruct b; [|discriminate].
  unfold struct_unpack_I, big_endian. cbn [fold_left]. f_equal. lia.
Qed.

Lemma big_endian_nonneg b : bytes_ok b -> 0 <= big_endian b.
Proof.
  unfold big_endian. intros H.
  enough (forall acc, 0 <= acc -> 0 <= fold_left (fun a x => a * 256 + x) b acc)
    as E by (apply E; lia).
  induction H as [|x b Hx Hb IH]; intros acc Hacc; cbn [fold_left]; [lia|].
  apply IH. unfold is_byte in Hx. lia.
Qed.

Lemma bytes_ok_firstn n b : bytes_ok b -> bytes_ok (firstn n b).
Proof.
  unfold bytes_ok. intros H. revert n.
  induction H; intros [|n]; cbn [firstn]; constructor; auto.
Qed.

Lemma bytes_ok_skipn n b : bytes_ok b -> bytes_ok (skipn n b).
Proof.
  unfold bytes_ok. intros H. revert n.
  induction H; intros [|n]; cbn [skipn]; auto.
Qed.

Lemma bytes_ok_app a b : bytes_ok a -> bytes_ok b -> bytes_ok (a ++ b).
Proof. intros Ha Hb. apply Forall_app. split; assumption. Qed.

(** The function in terms of the recovered bytes. *)
Lemma extract_payload_unfold image include_alpha lsb_count :
  extract_payload_from_image image include_alpha lsb_count
  = let recovered :=
      group8 (stream_bits lsb_count (_iter_channel_bytes image include_alpha)) in
    if (length recovered <? 4)%nat then
      Err (FormatError "Payload header missing or corrupted")
    else if Z.of_nat (length recovered) <? 4 + big_endian (firstn 4 recovered)
    then Err (FormatError "Payload length mismatch")
    else Ok (firstn (Z.to_nat (big_endian (firstn 4 recovered)))
                    (skipn 4 recovered)).
Proof.
  unfold extract_payload_from_image.
  rewrite extracted_bits_stream_bits, bits_to_bytes_group8. cbv zeta.
  set (recovered := group8 _).
  destruct (Nat.ltb_spec (length recovered) 4) as [Hlt|Hge]; [reflexivity|].
  rewrite slice_0, struct_unpack_I_big_endian
    by (rewrite length_firstn; lia).
  cbn [bind].
  destruct (Z.ltb_spec (Z.of_nat (length recovered))
                       (4 + big_endian (firstn 4 recovered))); [reflexivity|].
  unfold slice. do 2 f_equal. lia.
Qed.

(** C6. [extract_payload_from_image] reads the low [lsb_count] bits of every
    channel byte in stream order, packs them into bytes (a trailing partial
    byte is dropped), reads the first four recovered bytes as a big-endian
    unsigned length [L] and returns exactly the next [L] bytes; it raises
    [FormatError] when fewer than four bytes are recovered and when [L]
    exceeds the number of recovered bytes after the header. *)
Theorem extract_payload_from_image_spec
    (image : Image) (include_alpha : bool) (lsb_count : nat) :
  let recovered :=
    group8 (stream_bits lsb_count (_iter_channel_bytes image include_alpha)) in
  let L := big_endian (firstn 4 recovered) in
  ((length recovered < 4)%nat ->
     exists message,
       extract_payload_from_image image include_alpha lsb_count
       = Err (FormatError message))
  /\ ((4 <= length recovered)%nat -> Z.of_nat (length recovered) - 4 < L ->
     exists message,
       extract_payload_from_image image include_alpha lsb_count
       = Err (FormatError message))
  /\ ((4 <= length recovered)%nat -> L <= Z.of_nat (length recovered) - 4 ->
     exists payload,
       extract_payload_from_image image include_alpha lsb_count = Ok payload
       /\ payload = firstn (Z.to_nat L) (skipn 4 recovered)
       /\ Z.of_nat (length payload) = L).
Proof.
  intros recovered L. rewrite extract_payload_unfold. cbv zeta.
  fold recovered. fold L.
  assert (HL : 0 <= L)
    by (apply big_endian_nonneg, bytes_ok_firstn, group8_bytes).
  split; [|split].
  - intros H. destruct (Nat.ltb_spec (length recovered) 4); [eauto|lia].
  - intros H4 H. destruct (Nat.ltb_spec (length recovered) 4); [lia|].
    destruct (Z.ltb_spec (Z.of_nat (length recovered)) (4 + L)); [eauto|lia].
  - intros H4 H. destruct (Nat.ltb_spec (length recovered) 4); [lia|].
    destruct (Z.ltb_spec (Z.of_nat (length recovered)) (4 + L)); [lia|].
    eexists. split; [reflexivity|]. split; [reflexivity|].
    rewrite length_firstn, length_skipn. lia.
Qed.

Lemma extract_payload_from_image_spec_witness :
  exists payload,
    extract_payload_from_image Examples.stego_row false 1 = Ok payload
    /\ payload = [65].
Proof.
  destruct (proj2 (proj2
             (extract_payload_from_image_spec Examples.stego_row false 1)))
    as (payload & Hp & Hv & _).
  - vm_compute. lia.
  - vm_compute. discriminate.
  - exists payload. split; [exact Hp|]. rewrite Hv. reflexivity.
Defined.

(** ** The embedding loop *)

Lemma skipn_cons_nth {A} (d : A) (l : list A) n :
  (n < length l)%nat -> skipn n l = nth n l d :: skipn (S n) l.
Proof.
  revert n. induction l as [|a l IH]; intros [|n] H; cbn [length] in H;
    try lia; [reflexivity|].
  cbn [skipn nth]. rewrite IH by lia. reflexivity.
Qed.

(** The inner loop takes the next bits of the payload, as many as are
    left, up to [n]. *)
Lemma take_bits_fold payload_bits n : forall k v bit_index,
  fold_left (take_bit payload_bits) (seq k n) (v, bit_index)
  = (Z.lor v (lsb_value k (firstn n (skipn bit_index payload_bits))),
     (bit_index + length (firstn n (skipn bit_index payload_bits)))%nat).
Proof.
  induction n as [|n IH]; intros k v bi; cbn [seq fold_left firstn].
  - cbn [lsb_value length]. now rewrite Z.lor_0_r, Nat.add_0_r.
  - unfold take_bit at 2.
    destruct (Nat.ltb_spec bi (length payload_bits)) as [Hlt|Hge].
    + rewrite IH, (skipn_cons_nth false payload_bits bi Hlt).
      cbn [firstn lsb_value length]. rewrite Z.lor_assoc. f_equal. lia.
    + rewrite IH, (skipn_all2 payload_bits Hge), firstn_nil.
      cbn [lsb_value length]. reflexivity.
Qed.

Lemma skipn_taken {A} (l : list A) n bi :
  skipn (bi + length (firstn n (skipn bi l))) l = skipn n (skipn bi l).
Proof.
  rewrite skipn_skipn, length_firstn, length_skipn.
  destruct (Nat.le_gt_cases n (length l - bi)).
  - f_equal. lia.
  - rewrite !skipn_all2 by lia. reflexivity.
Qed.

Lemma embed_fold lsb_count payload_bits channels : forall acc bit_index,
  fst (fold_left
         (embed_channel lsb_count payload_bits
            (Z.lxor 0xFF (Z.shiftl 1 (Z.of_nat lsb_count) - 1)))
         channels (acc, bit_index))
  = acc ++ embed_bits lsb_count (skipn bit_index payload_bits) channels.
Proof.
  induction channels as [|c cs IH]; intros acc bi; cbn [fold_left embed_bits].
  - cbn [fst]. now rewrite app_nil_r.
  - unfold embed_channel at 2.
    destruct (Nat.ltb_spec bi (length payload_bits)) as [Hlt|Hge].
    + rewrite take_bits_fold, IH, skipn_taken, <- app_assoc, Z.shiftl_1_l.
      pose proof (skipn_cons_nth false payload_bits bi Hlt) as E.
      destruct (skipn bi payload_bits) as [|b r]; [discriminate|].
      reflexivity.
    + rewrite IH, (skipn_all2 payload_bits Hge), <- app_assoc. reflexivity.
Qed.

Lemma modified_stream_embed_bits lsb_count payload_with_header channels :
  modified_stream lsb_count payload_with_header channels
  = embed_bits lsb_count (expand payload_with_header) channels.
Proof.
  unfold modified_stream. rewrite embed_fold, bytes_to_bits_expand.
  reflexivity.
Qed.

(** ** The bits of an embedded channel byte *)

Lemma testbit_b2z_pos bit i : 0 < i -> Z.testbit (Z.b2z bit) i = false.
Proof.
  intros Hi. destruct bit; cbn [Z.b2z]; [|apply Z.testbit_0_l].
  destruct i; try lia. reflexivity.
Qed.

Lemma testbit_lsb_value group : forall k j : nat,
  Z.testbit (lsb_value k group) (Z.of_nat j)
  = (k <=? j)%nat && nth (j - k) group false.
Proof.
  induction group as [|bit rest IH]; intros k j; cbn [lsb_value].
  - rewrite Z.testbit_0_l. destruct (j - k)%nat; now rewrite andb_false_r.
  - rewrite Z.lor_spec, Z.shiftl_spec by lia.
    change (Z.of_nat (S k)) with (Z.of_nat (S k)). rewrite IH.
    destruct (Nat.leb_spec k j) as [Hle|Hgt].
    + destruct (Nat.eq_dec j k) as [->|Hne].
      * rewrite Z.sub_diag, Z.b2z_bit0, Nat.sub_diag.
        destruct (Nat.leb_spec (S k) k); [lia|]. cbn. now rewrite orb_false_r.
      * rewrite testbit_b2z_pos by lia.
        destruct (Nat.leb_spec (S k) j); [|lia].
        replace (j - k)%nat with (S (j - S k)) by lia. reflexivity.
    + rewrite Z.testbit_neg_r by lia.
      destruct (Nat.leb_spec (S k) j); [lia|]. reflexivity.
Qed.

Lemma testbit_clear_mask (n m : nat) :
  (n <= 8)%nat ->
  Z.testbit (Z.lxor 0xFF (2 ^ Z.of_nat n - 1)) (Z.of_nat m)
  = (n <=? m)%nat && (m <? 8)%nat.
Proof.
  intros Hn.
  change 0xFF with (Z.ones 8).
  replace (2 ^ Z.of_nat n - 1) with (Z.ones (Z.of_nat n))
    by (rewrite Z.ones_equiv; lia).
  rewrite Z.lxor_spec, !Z.testbit_ones_nonneg by lia.
  destruct (Z.ltb_spec (Z.of_nat m) 8), (Z.ltb_spec (Z.of_nat m) (Z.of_nat n)),
    (Nat.leb_spec n m), (Nat.ltb_spec m 8); try lia; reflexivity.
Qed.

Lemma testbit_byte_high c (m : nat) :
  is_byte c -> (8 <= m)%nat -> Z.testbit c (Z.of_nat m) = false.
Proof.
  intros [H0 H1] Hm.
  destruct (Z.eq_dec c 0) as [->|Hc]; [apply Z.testbit_0_l|].
  apply Z.bits_above_log2; [lia|].
  apply Z.log2_lt_pow2; [lia|].
  apply Z.lt_le_trans with (2 ^ 8); [exact H1|].
  apply Z.pow_le_mono_r; lia.
Qed.

Lemma testbit_embedded n c group (m : nat) :
  (n <= 8)%nat -> (length group <= n)%nat -> is_byte c ->
  Z.testbit (embedded n c group) (Z.of_nat m)
  = if (m <? n)%nat then nth m group false else Z.testbit c (Z.of_nat m).
Proof.
  intros Hn Hg Hc. unfold embedded.
  rewrite Z.lor_spec, Z.land_spec, testbit_clear_mask, testbit_lsb_value
    by assumption.
  cbn [Nat.leb andb]. rewrite Nat.sub_0_r.
  destruct (Nat.ltb_spec m n) as [Hlt|Hge].
  - destruct (Nat.leb_spec n m); [lia|]. cbn [andb]. now rewrite andb_false_r.
  - rewrite (nth_overflow group false) by lia. rewrite orb_false_r.
    destruct (Nat.leb_spec n m); [|lia]. cbn [andb].
    destruct (Nat.ltb_spec m 8); [now rewrite andb_true_r|].
    rewrite testbit_byte_high by assumption. reflexivity.
Qed.

Lemma embedded_nonneg n c group : is_byte c -> 0 <= embedded n c group.
Proof.
  intros [H0 _]. unfold embedded. apply Z.lor_nonneg. split.
  - apply Z.land_nonneg. now left.
  - clear. generalize 0%nat. induction group as [|bit rest IH]; intros k;
      cbn [lsb_value]; [lia|].
    apply Z.lor_nonneg. split; [|apply IH].
    apply Z.shiftl_nonneg. destruct bit; cbn; lia.
Qed.

Lemma embedded_byte n c group :
  (n <= 8)%nat -> (length group <= n)%nat -> is_byte c ->
  is_byte (embedded n c group).
Proof.
  intros Hn Hg Hc. pose proof (embedded_nonneg n c group Hc) as H0.
  split; [exact H0|].
  destruct (Z.eq_dec (embedded n c group) 0) as [->|Hne]; [lia|].
  change 256 with (2 ^ 8). apply Z.log2_lt_pow2; [lia|].
  destruct (Z.lt_ge_cases (Z.log2 (embedded n c group)) 8) as [|Hbig];
    [assumption|exfalso].
  pose proof (Z.bit_log2 (embedded n c group) ltac:(lia)) as Hbit.
  pose proof (Z.log2_nonneg (embedded n c group)) as Hlog.
  rewrite <- (Z2Nat.id (Z.log2 (embedded n c group))) in Hbit by lia.
  rewrite testbit_embedded in Hbit by assumption.
  destruct (Nat.ltb_spec (Z.to_nat (Z.log2 (embedded n c group))) n); [lia|].
  rewrite testbit_byte_high in Hbit by (assumption || lia). discriminate.
Qed.

(** Embedding leaves the bits above the low [n] bits as they were. *)
Lemma embedded_high_bits n c group :
  (n <= 8)%nat -> (length group <= n)%nat -> is_byte c ->
  Z.shiftr (embedded n c group) (Z.of_nat n) = Z.shiftr c (Z.of_nat n).
Proof.
  intros Hn Hg Hc. apply Z.bits_inj'. intros i Hi.
  rewrite !Z.shiftr_spec by assumption.
  replace (i + Z.of_nat n) with (Z.of_nat (Z.to_nat i + n)) by lia.
  rewrite testbit_embedded by assumption.
  destruct (Nat.ltb_spec (Z.to_nat i + n) n); [lia|reflexivity].
Qed.


Lemma nth_map_seq {A} (f : nat -> A) (d : A) i n :
  (i < n)%nat -> nth i (map f (seq 0 n)) d = f i.
Proof.
  intros H. rewrite (nth_indep _ d (f 0%nat)) by (now rewrite length_map, length_seq).
  rewrite map_nth, seq_nth by assumption. reflexivity.
Qed.

(** The low [n] bits of the byte are the group, padded with zeros. *)
Lemma low_bits_embedded n c group :
  (n <= 8)%nat -> (length group <= n)%nat -> is_byte c ->
  low_bits n (embedded n c group)
  = group ++ repeat false (n - length group).
Proof.
  intros Hn Hg Hc. unfold low_bits.
  apply nth_ext with (d := false) (d' := false).
  - rewrite length_map, length_seq, length_app, repeat_length. lia.
  - intros i Hi. rewrite length_map, length_seq in Hi.
    rewrite (nth_map_seq (fun i => Z.testbit (embedded n c group) (Z.of_nat i)))
      by assumption.
    rewrite testbit_embedded by assumption.
    destruct (Nat.ltb_spec i n); [|lia].
    destruct (Nat.lt_ge_cases i (length group)).
    + now rewrite app_nth1.
    + rewrite app_nth2, nth_repeat, nth_overflow by lia. reflexivity.
Qed.

Lemma shiftr_eq_close a b n :
  0 <= n -> Z.shiftr a n = Z.shiftr b n -> Z.abs (a - b) <= 2 ^ n - 1.
Proof.
  intros Hn H. rewrite !Z.shiftr_div_pow2 in H by assumption.
  assert (Hp : 0 < 2 ^ n) by (apply Z.pow_pos_nonneg; lia).
  pose proof (Z.div_mod a (2 ^ n) ltac:(lia)) as Ha.
  pose proof (Z.div_mod b (2 ^ n) ltac:(lia)) as Hb.
  pose proof (Z.mod_pos_bound a (2 ^ n) Hp).
  pose proof (Z.mod_pos_bound b (2 ^ n) Hp).
  rewrite H in Ha. lia.
Qed.

Lemma embed_bits_confined n channels : forall bits,
  (n <= 8)%nat -> bytes_ok channels ->
  Forall2 (confined n) channels (embed_bits n bits channels).
Proof.
  intros bits Hn Hcs. revert bits.
  induction Hcs as [|c cs Hc Hcs IH]; intros bits; cbn [embed_bits];
    [constructor|].
  assert (Hp : 0 < 2 ^ Z.of_nat n) by (apply Z.pow_pos_nonneg; lia).
  destruct bits as [|bit bits].
  - constructor; [|apply IH]. split; [reflexivity|].
    rewrite Z.sub_diag. cbn [Z.abs]. lia.
  - constructor; [|apply IH].
    assert (E : Z.shiftr (embedded n c (firstn n (bit :: bits))) (Z.of_nat n)
                = Z.shiftr c (Z.of_nat n))
      by (apply embedded_high_bits; [assumption|apply firstn_le_length|assumption]).
    split; [exact E|]. apply shiftr_eq_close; [lia|exact E].
Qed.

Lemma embed_bits_bytes n channels : forall bits,
  (n <= 8)%nat -> bytes_ok channels -> bytes_ok (embed_bits n bits channels).
Proof.
  intros bits Hn Hcs. revert bits.
  induction Hcs as [|c cs Hc Hcs IH]; intros bits; cbn [embed_bits];
    [constructor|].
  destruct bits as [|bit bits]; (constructor; [|apply IH]); [assumption|].
  apply embedded_byte; [assumption|apply firstn_le_length|assumption].
Qed.

Lemma length_embed_bits n channels : forall bits,
  length (embed_bits n bits channels) = length channels.
Proof.
  induction channels as [|c cs IH]; intros bits; cbn [embed_bits];
    [reflexivity|].
  destruct bits; cbn [length]; now rewrite IH.
Qed.

(** ** The channel stream of an image *)

Lemma map_add_seq a n : map (fun x => (a + x)%nat) (seq 0 n) = seq a n.
Proof.
  revert a. induction n as [|n IH]; intros a; [reflexivity|].
  rewrite !seq_S, map_app, IH. cbn. reflexivity.
Qed.

(** The two loops visit the buffer from its first entry to its last. *)
Lemma coords_index w h :
  map (fun xy => (snd xy * w + fst xy)%nat) (coords w h) = seq 0 (h * w).
Proof.
  unfold coords. induction h as [|h IH]; [reflexivity|].
  rewrite seq_S, flat_map_app, map_app, IH. cbn [flat_map].
  rewrite app_nil_r, map_map. cbn [fst snd].
  rewrite map_add_seq. cbn [Nat.add].
  replace (S h * w)%nat with (h * w + w)%nat by lia.
  now rewrite seq_app.
Qed.

Lemma length_coords w h : length (coords w h) = (w * h)%nat.
Proof.
  rewrite <- (length_map (fun xy => (snd xy * w + fst xy)%nat)), coords_index,
    length_seq. lia.
Qed.

Lemma map_nth_seq {A} (d : A) (l : list A) :
  map (fun i => nth i l d) (seq 0 (length l)) = l.
Proof.
  induction l as [|a l IH]; [reflexivity|].
  cbn [length seq map nth]. f_equal.
  rewrite <- seq_shift, map_map. exact IH.
Qed.

Lemma getpixel_coords image :
  length (buffer image) = (width image * height image)%nat ->
  map (getpixel image) (coords (width image) (height image)) = buffer image.
Proof.
  intros H. unfold getpixel.
  rewrite <- (map_map (fun xy => (snd xy * width image + fst xy)%nat)
                      (fun i => nth i (buffer image) (PInt 0))).
  rewrite coords_index.
  replace (height image * width image)%nat with (length (buffer image)) by lia.
  apply map_nth_seq.
Qed.

Lemma iter_channel_bytes_buffer image include_alpha :
  length (buffer image) = (width image * height image)%nat ->
  _iter_channel_bytes image include_alpha
  = flat_map (pixel_channels (mode image) include_alpha) (buffer image).
Proof.
  intros H. unfold _iter_channel_bytes.
  rewrite <- (getpixel_coords image H).
  rewrite flat_map_concat_map, (flat_map_concat_map _ (map _ _)), map_map.
  reflexivity.
Qed.

Lemma bands_cases m n :
  bands m = Some n ->
  (m = "L"%string /\ n = 1%nat) \/ (m = "1"%string /\ n = 1%nat)
  \/ (m = "LA"%string /\ n = 2%nat) \/ (m = "RGB"%string /\ n = 3%nat)
  \/ (m = "RGBA"%string /\ n = 4%nat).
Proof.
  unfold bands.
  destruct (String.eqb_spec m "L"); [intros [= <-]; auto|].
  destruct (String.eqb_spec m "1"); [intros [= <-]; auto|].
  destruct (String.eqb_spec m "LA"); [intros [= <-]; auto|].
  destruct (String.eqb_spec m "RGB"); [intros [= <-]; auto 6|].
  destruct (String.eqb_spec m "RGBA"); [intros [= <-]; auto 6|].
  discriminate.
Qed.

(** A pixel of a well-formed image yields as many channels as the mode and
    the flag say, each a byte. *)
Lemma pixel_channels_ok m n include_alpha p :
  bands m = Some n -> pixel_ok n p ->
  length (pixel_channels m include_alpha p) = usable_channels m include_alpha
  /\ bytes_ok (pixel_channels m include_alpha p).
Proof.
  intros Hm Hp.
  destruct (bands_cases m n Hm)
    as [[-> ->]|[[-> ->]|[[-> ->]|[[-> ->]|[-> ->]]]]];
    destruct p as [v|cs]; cbn [pixel_ok] in Hp;
    try (exfalso; destruct Hp as [Hn _]; (discriminate Hn || lia));
    try (destruct Hp as [_ Hv]; split;
         [reflexivity|constructor; [exact Hv|constructor]]);
    destruct Hp as (_ & Hlen & Hcs).
  - do 2 (destruct cs as [|? cs]; [discriminate|]).
    destruct cs; [|discriminate].
    destruct include_alpha; (split; [reflexivity|]);
      unfold bytes_ok in *; rewrite Forall_forall in *;
      intros x Hx; apply Hcs; cbn in Hx |- *; tauto.
  - do 3 (destruct cs as [|? cs]; [discriminate|]).
    destruct cs; [|discriminate].
    destruct include_alpha; (split; [reflexivity|]);
      unfold bytes_ok in *; rewrite Forall_forall in *;
      intros x Hx; apply Hcs; cbn in Hx |- *; tauto.
  - do 4 (destruct cs as [|? cs]; [discriminate|]).
    destruct cs; [|discriminate].
    destruct include_alpha; (split; [reflexivity|]);
      unfold bytes_ok in *; rewrite Forall_forall in *;
      intros x Hx; apply Hcs; cbn in Hx |- *; tauto.
Qed.

Lemma iter_channel_bytes_ok image include_alpha :
  image_ok image ->
  length (_iter_channel_bytes image include_alpha)
  = (width image * height image
     * usable_channels (mode image) include_alpha)%nat
  /\ bytes_ok (_iter_channel_bytes image include_alpha).
Proof.
  intros (n & Hm & Hlen & Hpx).
  rewrite iter_channel_bytes_buffer by exact Hlen. rewrite <- Hlen.
  clear Hlen. induction Hpx as [|p buf Hp Hbuf [IHl IHb]]; cbn [flat_map length].
  - split; [reflexivity|constructor].
  - destruct (pixel_channels_ok (mode image) n include_alpha p Hm Hp)
      as [Hl Hb].
    split; [rewrite length_app, Hl, IHl; lia|].
    apply Forall_app. split; assumption.
Qed.

(** ** Rebuilding the image *)

Lemma supported_cases m include_alpha :
  supported m include_alpha ->
  (m = "L"%string \/ m = "RGB"%string \/ m = "RGBA"%string)
  /\ per_pixel m = usable_channels m include_alpha.
Proof.
  intros [->|[->|[-> ->]]]; split; auto.
Qed.

(** A byte is stored as it is. *)
Lemma clip8_byte v : is_byte v -> clip8 v = v.
Proof.
  unfold is_byte, clip8. intros Hv.
  destruct (Z.leb_spec v 0); [lia|]. destruct (Z.ltb_spec v 256); lia.
Qed.

Lemma clip8_is_byte v : is_byte (clip8 v).
Proof.
  unfold is_byte, clip8.
  destruct (Z.leb_spec v 0); [lia|]. destruct (Z.ltb_spec v 256); lia.
Qed.

Lemma byte_c_int_ok v : is_byte v -> c_int_ok v = true.
Proof.
  unfold is_byte, c_int_ok. intros Hv.
  destruct (Z.leb_spec (- 2147483648) v); [|lia].
  destruct (Z.ltb_spec v 2147483648); [reflexivity|lia].
Qed.

Lemma byte_c_long_long_ok v : is_byte v -> c_long_long_ok v = true.
Proof.
  unfold is_byte, c_long_long_ok. intros Hv.
  destruct (Z.leb_spec (- 9223372036854775808) v); [|lia].
  destruct (Z.ltb_spec v 9223372036854775808); [reflexivity|lia].
Qed.

Lemma rebuild_pixel_ok m include_alpha chunk rest :
  supported m include_alpha -> length chunk = per_pixel m ->
  bytes_ok chunk ->
  rebuild_pixel m include_alpha (chunk ++ rest) = Ok (pixel_of m chunk, rest).
Proof.
  intros [->|[->|[-> ->]]] Hlen Hb; cbn in Hlen.
  - destruct chunk as [|c [|? ?]]; try discriminate.
    apply Forall_cons_iff in Hb. destruct Hb as [Hc _].
    cbn. unfold store_int.
    now rewrite (byte_c_long_long_ok c Hc), (clip8_byte c Hc).
  - destruct chunk as [|a [|b [|c [|? ?]]]]; try discriminate.
    apply Forall_cons_iff in Hb. destruct Hb as [Ha Hb].
    apply Forall_cons_iff in Hb. destruct Hb as [Hb Hc].
    apply Forall_cons_iff in Hc. destruct Hc as [Hc _].
    destruct include_alpha; cbn;
      now rewrite (byte_c_long_long_ok a Ha), (byte_c_int_ok b Hb),
        (byte_c_int_ok c Hc), (clip8_byte a Ha), (clip8_byte b Hb),
        (clip8_byte c Hc).
  - destruct chunk as [|a [|b [|c [|d [|? ?]]]]]; try discriminate.
    apply Forall_cons_iff in Hb. destruct Hb as [Ha Hb].
    apply Forall_cons_iff in Hb. destruct Hb as [Hb Hc].
    apply Forall_cons_iff in Hc. destruct Hc as [Hc Hd].
    apply Forall_cons_iff in Hd. destruct Hd as [Hd _].
    cbn. now rewrite (byte_c_long_long_ok a Ha), (byte_c_int_ok b Hb),
      (byte_c_int_ok c Hc), (byte_c_int_ok d Hd), (clip8_byte a Ha),
      (clip8_byte b Hb), (clip8_byte c Hc), (clip8_byte d Hd).
Qed.

Lemma rebuild_fold m include_alpha :
  supported m include_alpha ->
  forall cds channels buf,
    length channels = (per_pixel m * length cds)%nat ->
    bytes_ok channels ->
    fold_left (rebuild_at m include_alpha) cds (Ok (buf, channels))
    = Ok (buf ++ regroup m (per_pixel m) (length cds) channels, []).
Proof.
  intros Hs. induction cds as [|xy cds IH]; intros channels buf Hlen Hb;
    cbn [fold_left length regroup].
  - cbn [length] in Hlen. rewrite Nat.mul_0_r in Hlen.
    destruct channels; [|discriminate]. now rewrite app_nil_r.
  - cbn [length] in Hlen.
    unfold rebuild_at at 2. cbn [bind].
    rewrite <- (firstn_skipn (per_pixel m) channels) at 1.
    rewrite rebuild_pixel_ok;
      [|exact Hs|rewrite length_firstn; lia|now apply bytes_ok_firstn].
    cbn [bind].
    rewrite IH by (rewrite ?length_skipn; try lia; now apply bytes_ok_skipn).
    rewrite <- app_assoc. reflexivity.
Qed.

Lemma channels_to_image_ok image channels include_alpha :
  supported (mode image) include_alpha ->
  length channels
  = (per_pixel (mode image) * (width image * height image))%nat ->
  bytes_ok channels ->
  _channels_to_image image channels include_alpha
  = Ok (mkImage (mode image) (width image) (height image)
          (regroup (mode image) (per_pixel (mode image))
                   (width image * height image) channels)).
Proof.
  intros Hs Hlen Hb. unfold _channels_to_image.
  rewrite rebuild_fold, length_coords by (rewrite ?length_coords; assumption).
  reflexivity.
Qed.

Lemma pixel_channels_pixel_of m include_alpha chunk :
  supported m include_alpha -> length chunk = per_pixel m ->
  pixel_channels m include_alpha (pixel_of m chunk) = chunk.
Proof.
  intros [->|[->|[-> ->]]] Hlen; cbn in Hlen.
  - destruct chunk as [|c [|? ?]]; try discriminate. reflexivity.
  - destruct chunk as [|a [|b [|c [|? ?]]]]; try discriminate.
    destruct include_alpha; reflexivity.
  - destruct chunk as [|a [|b [|c [|d [|? ?]]]]]; try discriminate.
    reflexivity.
Qed.

Lemma flat_map_regroup m include_alpha n : forall channels,
  supported m include_alpha ->
  length channels = (per_pixel m * n)%nat ->
  flat_map (pixel_channels m include_alpha) (regroup m (per_pixel m) n channels)
  = channels.
Proof.
  induction n as [|n IH]; intros channels Hs Hlen; cbn [regroup flat_map].
  - rewrite Nat.mul_0_r in Hlen. destruct channels; [reflexivity|discriminate].
  - rewrite pixel_channels_pixel_of, IH;
      [apply firstn_skipn|exact Hs|rewrite length_skipn; lia|exact Hs
      |rewrite length_firstn; lia].
Qed.

Lemma length_regroup m k n : forall channels,
  length (regroup m k n channels) = n.
Proof.
  induction n as [|n IH]; intros channels; cbn [regroup length];
    [reflexivity|]. now rewrite IH.
Qed.

(** On a supported image the rebuilt image offers the stream it was built
    from. *)
Lemma iter_channels_to_image image channels include_alpha out :
  supported (mode image) include_alpha ->
  length channels
  = (per_pixel (mode image) * (width image * height image))%nat ->
  bytes_ok channels ->
  _channels_to_image image channels include_alpha = Ok out ->
  _iter_channel_bytes out include_alpha = channels
  /\ mode out = mode image /\ width out = width image
  /\ height out = height image.
Proof.
  intros Hs Hlen Hb Hout. rewrite channels_to_image_ok in Hout by assumption.
  injection Hout as <-. cbn [mode width height].
  split; [|auto].
  rewrite iter_channel_bytes_buffer by (cbn; apply length_regroup).
  cbn [mode buffer]. now apply flat_map_regroup.
Qed.

(** The defect of [_channels_to_image]: with the alpha channel excluded, the
    fourth channel of the first pixel of an RGBA image is read from
    [original_pixel], a name that is bound nowhere. *)
Lemma rebuild_at_err m include_alpha cds e :
  fold_left (rebuild_at m include_alpha) cds (Err e) = Err e.
Proof. induction cds; [reflexivity|exact IHcds]. Qed.

Lemma channels_to_image_rgba_without_alpha image channels :
  mode image = "RGBA"%string ->
  (0 < width image * height image)%nat ->
  (3 <= length channels)%nat ->
  _channels_to_image image channels false = Err (NameError "original_pixel").
Proof.
  intros Hm Hpx Hlen. unfold _channels_to_image. rewrite Hm.
  pose proof (length_coords (width image) (height image)) as Hc.
  destruct (coords (width image) (height image)) as [|xy cds];
    [cbn [length] in Hc; lia|].
  destruct channels as [|a [|b [|c rest]]]; cbn [length] in Hlen; try lia.
  cbn [fold_left].
  change (rebuild_at "RGBA" false (Ok ([], a :: b :: c :: rest)) xy)
    with (@Err (list pixel * list Z) (NameError "original_pixel")).
  now rewrite rebuild_at_err.
Qed.

(** ** Embedding, then extracting *)

(** The bits read back from the embedded stream begin with the payload
    bits, when the stream has room for them. *)
Lemma stream_bits_embed_bits n channels : forall bits,
  (n <= 8)%nat -> bytes_ok channels ->
  (length bits <= n * length channels)%nat ->
  exists tail, stream_bits n (embed_bits n bits channels) = bits ++ tail.
Proof.
  intros bits Hn Hcs. revert bits.
  induction Hcs as [|c cs Hc Hcs IH]; intros bits Hlen.
  - cbn [length] in Hlen. rewrite Nat.mul_0_r in Hlen.
    destruct bits; [|cbn [length] in Hlen; lia]. now exists [].
  - destruct bits as [|bit bits]; [eexists; reflexivity|].
    cbn [embed_bits]. unfold stream_bits. cbn [flat_map].
    fold (stream_bits n (embed_bits n (skipn n (bit :: bits)) cs)).
    rewrite low_bits_embedded by (assumption || apply firstn_le_length).
    destruct (Nat.le_gt_cases (length (bit :: bits)) n) as [Hle|Hgt].
    + rewrite firstn_all2 by exact Hle. rewrite <- app_assoc. eauto.
    + destruct (IH (skipn n (bit :: bits))) as [tail Ht].
      { rewrite length_skipn. cbn [length] in Hlen |- *. lia. }
      rewrite Ht, length_firstn, Nat.min_l by lia.
      rewrite Nat.sub_diag. cbn [repeat]. rewrite app_nil_r, app_assoc.
      rewrite firstn_skipn. eauto.
Qed.

Lemma struct_pack_I_ok n :
  0 <= n < 2 ^ 32 ->
  exists header,
    struct_pack_I n = Ok header /\ length header = 4%nat
    /\ bytes_ok header /\ big_endian header = n.
Proof.
  intros Hn. unfold struct_pack_I.
  destruct (Z.leb_spec 0 n); [|lia]. destruct (Z.ltb_spec n (2 ^ 32)); [|lia].
  cbn [andb]. eexists. split; [reflexivity|]. split; [reflexivity|].
  change (2 ^ 32) with 4294967296 in *.
  change (2 ^ 24) with 16777216. change (2 ^ 16) with 65536.
  change (2 ^ 8) with 256.
  split.
  - repeat constructor; Z.div_mod_to_equations; lia.
  - unfold big_endian. cbn [fold_left]. Z.div_mod_to_equations. lia.
Qed.

Lemma struct_pack_I_err n :
  ~ (0 <= n < 2 ^ 32) -> struct_pack_I n = Err StructError.
Proof.
  intros Hn. unfold struct_pack_I.
  destruct (Z.leb_spec 0 n); [|reflexivity].
  destruct (Z.ltb_spec n (2 ^ 32)); [lia|reflexivity].
Qed.

Lemma with_header_ok payload :
  Z.of_nat (length payload) < 2 ^ 32 ->
  exists header,
    with_header payload = Ok (header ++ payload) /\ length header = 4%nat
    /\ bytes_ok header /\ big_endian header = Z.of_nat (length payload).
Proof.
  intros H. unfold with_header.
  destruct (struct_pack_I_ok (Z.of_nat (length payload)) ltac:(lia))
    as (header & -> & Hh). cbn [bind]. eauto.
Qed.

(** [embed_payload_into_image] once the header is built and the capacity
    check is passed. *)
Lemma embed_payload_unfold image payload (include_alpha : bool) lsb_count
    header :
  with_header payload = Ok (header ++ payload) ->
  length header = 4%nat ->
  8 * (Z.of_nat (length payload) + 4)
  <= Z.of_nat (width image) * Z.of_nat (height image)
     * (if include_alpha then 3 else 4) * Z.of_nat lsb_count ->
  embed_payload_into_image image payload include_alpha lsb_count
  = _channels_to_image image
      (modified_stream lsb_count (header ++ payload)
         (_iter_channel_bytes image include_alpha))
      include_alpha.
Proof.
  intros Hh Hlen Hcap. unfold embed_payload_into_image. rewrite Hh.
  cbn [bind]. unfold calculate_required_bits_for_payload.
  rewrite length_app, Hlen.
  destruct (Z.gtb_spec (Z.of_nat (4 + length payload) * 8)
              (Z.of_nat (width image) * Z.of_nat (height image)
               * (if include_alpha then 3 else 4) * Z.of_nat lsb_count));
    [lia|reflexivity].
Qed.

Lemma length_modified_stream lsb_count payload_with_header channels :
  length (modified_stream lsb_count payload_with_header channels)
  = length channels.
Proof. rewrite modified_stream_embed_bits. apply length_embed_bits. Qed.

(** On a supported image that passes the capacity check, embedding returns
    an image of the same mode and size whose channel stream is the modified
    stream. *)
Lemma embed_payload_ok image payload (include_alpha : bool) lsb_count :
  image_ok image -> supported (mode image) include_alpha ->
  (lsb_count <= 8)%nat ->
  Z.of_nat (length payload) < 2 ^ 32 ->
  8 * (Z.of_nat (length payload) + 4)
  <= Z.of_nat (width image) * Z.of_nat (height image)
     * (if include_alpha then 3 else 4) * Z.of_nat lsb_count ->
  exists header out,
    with_header payload = Ok (header ++ payload)
    /\ length header = 4%nat /\ bytes_ok header
    /\ big_endian header = Z.of_nat (length payload)
    /\ embed_payload_into_image image payload include_alpha lsb_count = Ok out
    /\ _iter_channel_bytes out include_alpha
       = modified_stream lsb_count (header ++ payload)
           (_iter_channel_bytes image include_alpha)
    /\ mode out = mode image /\ width out = width image
    /\ height out = height image.
Proof.
  intros Hok Hs Hlsb Hlen Hcap.
  destruct (with_header_ok payload Hlen) as (header & Hh & Hl & Hb & He).
  destruct (iter_channel_bytes_ok image include_alpha Hok) as [Hstream Hsb].
  destruct (supported_cases _ _ Hs) as [_ Hk].
  assert (Hm : length (modified_stream lsb_count (header ++ payload)
                         (_iter_channel_bytes image include_alpha))
               = (per_pixel (mode image) * (width image * height image))%nat)
    by (rewrite length_modified_stream, Hstream, Hk; lia).
  assert (Hmb : bytes_ok (modified_stream lsb_count (header ++ payload)
                            (_iter_channel_bytes image include_alpha)))
    by (rewrite modified_stream_embed_bits; now apply embed_bits_bytes).
  exists header.
  rewrite (embed_payload_unfold image payload include_alpha lsb_count header)
    by assumption.
  rewrite channels_to_image_ok by assumption.
  eexists. do 4 (split; [eassumption|]). split; [reflexivity|].
  eapply iter_channels_to_image; [exact Hs|exact Hm|exact Hmb|].
  now apply channels_to_image_ok.
Qed.

(** Extraction on a stream that begins with a framed payload. *)
Lemma extract_framed image include_alpha lsb_count header payload tail :
  stream_bits lsb_count (_iter_channel_bytes image include_alpha)
  = expand (header ++ payload) ++ tail ->
  length header = 4%nat -> bytes_ok header -> bytes_ok payload ->
  big_endian header = Z.of_nat (length payload) ->
  extract_payload_from_image image include_alpha lsb_count = Ok payload.
Proof.
  intros Hbits Hl Hh Hp He. rewrite extract_payload_unfold, Hbits.
  rewrite group8_expand_app by (apply bytes_ok_app; assumption).
  cbv zeta. rewrite <- !app_assoc.
  rewrite (firstn_app_exact header) by exact Hl.
  rewrite (skipn_app_exact header) by exact Hl.
  rewrite He, !length_app, Hl.
  destruct (Nat.ltb_spec (4 + (length payload + length (group8 tail))) 4);
    [lia|].
  destruct (Z.ltb_spec
              (Z.of_nat (4 + (length payload + length (group8 tail))))
              (4 + Z.of_nat (length payload))); [lia|].
  rewrite Nat2Z.id, firstn_app_exact by reflexivity. reflexivity.
Qed.

(** Embedding then extracting, on a supported image: the payload comes
    back. *)
Lemma embed_extract_round_trip image payload (include_alpha : bool) lsb_count :
  image_ok image -> supported (mode image) include_alpha ->
  (1 <= lsb_count <= 8)%nat -> bytes_ok payload ->
  Z.of_nat (length payload) < 2 ^ 32 ->
  8 * (Z.of_nat (length payload) + 4)
  <= Z.of_nat (length (_iter_channel_bytes image include_alpha))
     * Z.of_nat lsb_count ->
  8 * (Z.of_nat (length payload) + 4)
  <= Z.of_nat (width image) * Z.of_nat (height image)
     * (if include_alpha then 3 else 4) * Z.of_nat lsb_count ->
  exists out,
    embed_payload_into_image image payload include_alpha lsb_count = Ok out
    /\ extract_payload_from_image out include_alpha lsb_count = Ok payload.
Proof.
  intros Hok Hs Hlsb Hp Hlen Hfit Hcap.
  destruct (embed_payload_ok image payload include_alpha lsb_count
              Hok Hs ltac:(lia) Hlen Hcap)
    as (header & out & Hh & Hl & Hb & He & Hout & Hstream & _).
  exists out. split; [exact Hout|].
  destruct (iter_channel_bytes_ok image include_alpha Hok) as [_ Hbytes].
  destruct (stream_bits_embed_bits lsb_count
              (_iter_channel_bytes image include_alpha)
              (expand (header ++ payload))) as [tail Ht];
    [lia|exact Hbytes| |].
  { rewrite length_expand, length_app, Hl. nia. }
  apply (extract_framed out include_alpha lsb_count header payload tail);
    try assumption.
  now rewrite Hstream, modified_stream_embed_bits.
Qed.

(** ** UTF-8 *)

Ltac decide_tests :=
  repeat match goal with
         | |- context [Z.leb ?a ?b] => destruct (Z.leb_spec a b); try lia
         | |- context [Z.ltb ?a ?b] => destruct (Z.ltb_spec a b); try lia
         end;
  cbn [andb negb orb].

Lemma utf8_decode_1 b0 rest :
  0 <= b0 < 0x80 ->
  utf8_decode (b0 :: rest) = (t <- utf8_decode rest ;; Ok (b0 :: t)).
Proof.
  intros H. cbn [utf8_decode]. decide_tests. reflexivity.
Qed.

Lemma utf8_decode_2 b0 b1 rest :
  0xC2 <= b0 <= 0xDF -> 0x80 <= b1 <= 0xBF ->
  utf8_decode (b0 :: b1 :: rest)
  = (t <- utf8_decode rest ;; Ok ((b0 - 0xC0) * 64 + (b1 - 0x80) :: t)).
Proof.
  intros H0 H1. cbn [utf8_decode]. unfold is_cont. decide_tests. reflexivity.
Qed.

Lemma utf8_decode_3 b0 b1 b2 rest :
  0xE0 <= b0 <= 0xEF -> 0x80 <= b1 <= 0xBF -> 0x80 <= b2 <= 0xBF ->
  0x800 <= (b0 - 0xE0) * 4096 + (b1 - 0x80) * 64 + (b2 - 0x80) ->
  is_surrogate ((b0 - 0xE0) * 4096 + (b1 - 0x80) * 64 + (b2 - 0x80)) = false ->
  utf8_decode (b0 :: b1 :: b2 :: rest)
  = (t <- utf8_decode rest ;;
     Ok ((b0 - 0xE0) * 4096 + (b1 - 0x80) * 64 + (b2 - 0x80) :: t)).
Proof.
  intros H0 H1 H2 Hc Hs. cbn [utf8_decode]. cbv zeta. rewrite Hs.
  unfold is_cont. decide_tests. reflexivity.
Qed.

Lemma utf8_decode_4 b0 b1 b2 b3 rest :
  0xF0 <= b0 <= 0xF4 -> 0x80 <= b1 <= 0xBF -> 0x80 <= b2 <= 0xBF ->
  0x80 <= b3 <= 0xBF ->
  0x10000 <= (b0 - 0xF0) * 262144 + (b1 - 0x80) * 4096
             + (b2 - 0x80) * 64 + (b3 - 0x80) <= 0x10FFFF ->
  utf8_decode (b0 :: b1 :: b2 :: b3 :: rest)
  = (t <- utf8_decode rest ;;
     Ok ((b0 - 0xF0) * 262144 + (b1 - 0x80) * 4096
         + (b2 - 0x80) * 64 + (b3 - 0x80) :: t)).
Proof.
  intros H0 H1 H2 H3 Hc. cbn [utf8_decode]. cbv zeta.
  unfold is_cont. decide_tests. reflexivity.
Qed.

Lemma scalar_range c :
  scalar c = true -> (0 <= c < 0xD800 \/ 0xE000 <= c <= 0x10FFFF).
Proof.
  unfold scalar, is_surrogate. intros H.
  destruct (Z.leb_spec 0 c), (Z.leb_spec c 0x10FFFF), (Z.leb_spec 0xD800 c),
    (Z.leb_spec c 0xDFFF); cbn in H; try discriminate; lia.
Qed.

Lemma not_surrogate c :
  (0 <= c < 0xD800 \/ 0xE000 <= c <= 0x10FFFF) -> is_surrogate c = false.
Proof.
  unfold is_surrogate. intros H.
  destruct (Z.leb_spec 0xD800 c), (Z.leb_spec c 0xDFFF); cbn; try reflexivity;
    lia.
Qed.

(** One character: encoding succeeds, gives 1 to 4 bytes, and the decoder
    reads the character back in front of whatever follows. *)
Lemma utf8_char_round_trip c rest :
  scalar c = true ->
  exists bs,
    utf8_encode_char c = Ok bs /\ bytes_ok bs /\ (1 <= length bs <= 4)%nat
    /\ utf8_decode (bs ++ rest) = (t <- utf8_decode rest ;; Ok (c :: t)).
Proof.
  intros Hs. pose proof (scalar_range c Hs) as Hr.
  unfold utf8_encode_char. rewrite Hs. cbn [negb].
  destruct (Z.ltb_spec c 0x80) as [H1|H1].
  { eexists. split; [reflexivity|]. split.
    - repeat constructor; lia.
    - split; [cbn; lia|]. cbn [app]. apply utf8_decode_1. lia. }
  destruct (Z.ltb_spec c 0x800) as [H2|H2].
  { eexists. split; [reflexivity|]. split.
    - repeat constructor; Z.div_mod_to_equations; lia.
    - split; [cbn; lia|]. cbn [app].
      rewrite utf8_decode_2 by (Z.div_mod_to_equations; lia).
      replace ((192 + c / 64 - 192) * 64 + (128 + c mod 64 - 128)) with c
        by (Z.div_mod_to_equations; lia).
      reflexivity. }
  destruct (Z.ltb_spec c 0x10000) as [H3|H3].
  { eexists. split; [reflexivity|]. split.
    - repeat constructor; Z.div_mod_to_equations; lia.
    - split; [cbn; lia|]. cbn [app].
      assert (E : (224 + c / 4096 - 224) * 4096
                  + (128 + (c / 64) mod 64 - 128) * 64
                  + (128 + c mod 64 - 128) = c)
        by (Z.div_mod_to_equations; lia).
      rewrite utf8_decode_3; rewrite ?E;
        try (Z.div_mod_to_equations; lia).
      + reflexivity.
      + apply not_surrogate, Hr. }
  { eexists. split; [reflexivity|]. split.
    - repeat constructor; Z.div_mod_to_equations; lia.
    - split; [cbn; lia|]. cbn [app].
      assert (E : (240 + c / 262144 - 240) * 262144
                  + (128 + (c / 4096) mod 64 - 128) * 4096
                  + (128 + (c / 64) mod 64 - 128) * 64
                  + (128 + c mod 64 - 128) = c)
        by (Z.div_mod_to_equations; lia).
      rewrite utf8_decode_4; rewrite ?E;
        try (Z.div_mod_to_equations; lia).
      reflexivity. }
Qed.

Lemma utf8_round_trip t :
  encodable t ->
  exists bs,
    utf8_encode t = Ok bs /\ bytes_ok bs
    /\ (length t <= length bs <= 4 * length t)%nat
    /\ forall rest,
         utf8_decode (bs ++ rest) = (t' <- utf8_decode rest ;; Ok (t ++ t')).
Proof.
  induction 1 as [|c t Hc Ht (bs & He & Hb & Hl & Hd)].
  - exists []. repeat split; try constructor; cbn; try lia.
    intros rest. now destruct (utf8_decode rest).
  - destruct (utf8_char_round_trip c [] Hc) as (cb & Hce & Hcb & Hcl & _).
    exists (cb ++ bs). cbn [utf8_encode]. rewrite Hce, He. cbn [bind].
    split; [reflexivity|]. split; [now apply bytes_ok_app|].
    split; [rewrite length_app; cbn [length]; lia|].
    intros rest. rewrite <- app_assoc.
    destruct (utf8_char_round_trip c (bs ++ rest) Hc) as (cb' & Hce' & _ & _ & Hd').
    rewrite Hce in Hce'. injection Hce' as <-.
    rewrite Hd', Hd. now destruct (utf8_decode rest).
Qed.

(** ** Building and reading the payload *)

Lemma rotate_char_scalar shift c :
  scalar c = true -> scalar (rotate_char shift c) = true.
Proof.
  intros Hs. destruct (is_letter_cases c) as [[Hc _]|[[Hc _]|Hc]].
  - rewrite rotate_char_lower by exact Hc.
    pose proof (Z.mod_pos_bound (c - 0x61 + shift) 26 ltac:(lia)).
    unfold scalar, is_surrogate. decide_tests; reflexivity.
  - rewrite rotate_char_upper by exact Hc.
    pose proof (Z.mod_pos_bound (c - 0x41 + shift) 26 ltac:(lia)).
    unfold scalar, is_surrogate. decide_tests; reflexivity.
  - now rewrite rotate_char_not_letter.
Qed.

Lemma rotate_letters_encodable t shift :
  encodable t -> encodable (rotate_letters t shift).
Proof.
  rewrite rotate_letters_map. unfold encodable.
  induction 1; cbn [map]; constructor; auto using rotate_char_scalar.
Qed.

Lemma length_rotate_letters t shift :
  length (rotate_letters t shift) = length t.
Proof. rewrite rotate_letters_map. apply length_map. Qed.

Lemma tags_encodable : encodable START_TAG /\ encodable END_TAG.
Proof. split; repeat constructor. Qed.

Lemma tagged_encodable t : encodable t -> encodable (START_TAG ++ t ++ END_TAG).
Proof.
  intros H. destruct tags_encodable. unfold encodable in *.
  rewrite !Forall_app. auto.
Qed.

Lemma list_eqb_refl l : list_eqb l l = true.
Proof. unfold list_eqb. destruct (list_eq_dec Z.eq_dec l l); congruence. Qed.

Lemma list_eqb_eq l1 l2 : list_eqb l1 l2 = true <-> l1 = l2.
Proof.
  unfold list_eqb. destruct (list_eq_dec Z.eq_dec l1 l2); split; congruence.
Qed.

Lemma startswith_app p rest : startswith (p ++ rest) p = true.
Proof.
  unfold startswith. rewrite firstn_app_exact by reflexivity.
  apply list_eqb_refl.
Qed.

Lemma endswith_app front s : endswith (front ++ s) s = true.
Proof.
  unfold endswith. rewrite length_app.
  destruct (Nat.leb_spec (length s) (length front + length s)); [|lia].
  replace (length front + length s - length s)%nat with (length front) by lia.
  rewrite skipn_app_exact by reflexivity. apply list_eqb_refl.
Qed.

(** The tags come off a tagged text. *)
Lemma strip_tags t :
  let tagged := START_TAG ++ t ++ END_TAG in
  startswith tagged START_TAG && endswith tagged END_TAG = true
  /\ slice (length START_TAG) (length tagged - length END_TAG) tagged = t.
Proof.
  cbv zeta. split.
  - rewrite startswith_app, app_assoc, endswith_app. reflexivity.
  - unfold slice. rewrite skipn_app_exact by reflexivity.
    rewrite !length_app.
    apply firstn_app_exact. lia.
Qed.

Lemma os_urandom_spec n e :
  length (fst (Crypto.os_urandom n e)) = n
  /\ ((forall i, is_byte (e i)) -> bytes_ok (fst (Crypto.os_urandom n e))).
Proof.
  unfold Crypto.os_urandom. cbn [fst]. split.
  - now rewrite length_map, length_seq.
  - intros H. apply Forall_forall. intros x Hx.
    apply in_map_iff in Hx as (i & <- & _). apply H.
Qed.

Section WithLaws.
Context {P : Crypto.Primitives} {L : Crypto.PrimitivesLaws P}.

(** With the default parameters PBKDF2 returns a key, and one AES
    accepts. *)
Lemma pbkdf2_default salt pw :
  exists key,
    Crypto.pbkdf2_hmac_sha256 32 salt 100000 pw = Ok key
    /\ Crypto.aes_key_ok key = true.
Proof.
  destruct (Crypto.pbkdf2_length 32 salt 100000 pw) as (key & Hk & Hl);
    [lia|lia|].
  exists key. split; [exact Hk|]. unfold Crypto.aes_key_ok. now rewrite Hl.
Qed.

(** [derive_key_from_password] on a password that UTF-8 can encode. *)
Lemma derive_key_unfold password salt kdf_params e pw :
  utf8_encode password = Ok pw ->
  Crypto.derive_key_from_password password salt kdf_params e
  = let s := match salt with
             | None => fst (Crypto.os_urandom 16 e)
             | Some s => s
             end in
    let e' := match salt with
              | None => snd (Crypto.os_urandom 16 e)
              | Some _ => e
              end in
    key <- Crypto.pbkdf2_hmac_sha256
             (Crypto.params_get kdf_params "length" 32) s
             (Crypto.params_get kdf_params "iterations" 100000) pw ;;
    Ok (key, s, e').
Proof.
  intros Hpw.
  unfold Crypto.derive_key_from_password, Crypto.pbkdf2_hmac_sha256.
  cbv zeta. destruct salt as [s|]; cbn [Crypto.os_urandom fst snd];
    (destruct (Crypto.PBKDF2HMAC _ _ _) as [k|err]; cbn [bind];
     [now rewrite Hpw|reflexivity]).
Qed.

Lemma derive_key_default password salt e pw :
  utf8_encode password = Ok pw ->
  Crypto.derive_key_from_password password (Some salt) None e
  = (key <- Crypto.pbkdf2_hmac_sha256 32 salt 100000 pw ;; Ok (key, salt, e))
  /\ Crypto.derive_key_from_password password None None e
     = (key <- Crypto.pbkdf2_hmac_sha256 32 (fst (Crypto.os_urandom 16 e))
                 100000 pw ;;
        Ok (key, fst (Crypto.os_urandom 16 e), snd (Crypto.os_urandom 16 e))).
Proof.
  intros Hpw. split; now rewrite (derive_key_unfold _ _ _ _ pw Hpw).
Qed.

(** What [build_payload_from_text] returns: the packed payload, without
    a length header. *)
Lemma build_payload_shape text password e :
  encodable text -> encodable password ->
  exists utf8_bytes pw key,
    utf8_encode (rotate_letters (START_TAG ++ text ++ END_TAG)
                                (Z.of_nat (length password)))
    = Ok utf8_bytes
    /\ utf8_encode password = Ok pw
    /\ let salt := fst (Crypto.os_urandom 16 e) in
       let e1 := snd (Crypto.os_urandom 16 e) in
       let nonce := fst (Crypto.os_urandom 12 e1) in
       let ciphertext := fst (Crypto.aes_gcm_encrypt key nonce utf8_bytes) in
       let tag := snd (Crypto.aes_gcm_encrypt key nonce utf8_bytes) in
       Crypto.pbkdf2_hmac_sha256 32 salt 100000 pw = Ok key
       /\ Crypto.aes_key_ok key = true
       /\ build_payload_from_text text password None e
          = Ok (salt ++ nonce ++ tag ++ ciphertext,
                snd (Crypto.os_urandom 12 e1))
       /\ length tag = 16%nat
       /\ length ciphertext = length utf8_bytes
       /\ bytes_ok utf8_bytes
       /\ (length text + 20 <= length utf8_bytes)%nat.
Proof.
  intros Ht Hp.
  destruct (utf8_round_trip _ (rotate_letters_encodable _
              (Z.of_nat (length password)) (tagged_encodable text Ht)))
    as (utf8_bytes & Hu & Hb & Hl & _).
  destruct (utf8_round_trip password Hp) as (pw & Hpw & _).
  destruct (pbkdf2_default (fst (Crypto.os_urandom 16 e)) pw)
    as (key & Hkey & Hk).
  exists utf8_bytes, pw, key. split; [exact Hu|]. split; [exact Hpw|].
  cbv zeta. split; [exact Hkey|]. split; [exact Hk|].
  destruct (derive_key_default password [] e pw Hpw) as (_ & Hd).
  unfold build_payload_from_text, text_to_bytes. rewrite Hu. cbn [bind].
  rewrite Hd, Hkey. cbn [bind].
  unfold Crypto.encrypt_with_aes_gcm.
  destruct (Crypto.os_urandom Crypto.NONCE_LENGTH
              (snd (Crypto.os_urandom 16 e))) as [nonce e2] eqn:En.
  rewrite Hk.
  change (Crypto.os_urandom 12 (snd (Crypto.os_urandom 16 e)))
    with (Crypto.os_urandom Crypto.NONCE_LENGTH
            (snd (Crypto.os_urandom 16 e))).
  rewrite En. cbn [fst snd].
  pose proof (Crypto.encrypt_tag_length key nonce utf8_bytes) as Htag.
  pose proof (Crypto.encrypt_ciphertext_length key nonce utf8_bytes) as Hct.
  destruct (Crypto.aes_gcm_encrypt _ nonce utf8_bytes) as [ct tag].
  cbn [fst snd] in *. cbn [bind].
  rewrite pack_ok;
    [|apply os_urandom_spec
     |now rewrite <- (proj1 (os_urandom_spec Crypto.NONCE_LENGTH
                               (snd (Crypto.os_urandom 16 e)))), En
     |exact Htag].
  cbn [bind]. split; [reflexivity|]. split; [exact Htag|].
  split; [exact Hct|]. split; [exact Hb|].
  rewrite length_rotate_letters, !length_app in Hl.
  change (length START_TAG) with 11%nat in Hl.
  change (length END_TAG) with 9%nat in Hl. lia.
Qed.

(** A nonce of 12 bytes and a tag of 16 bytes are what GCM accepts. *)
Lemma gcm_arguments_default nonce tag :
  length nonce = 12%nat -> length tag = 16%nat ->
  Crypto.gcm_arguments_ok nonce tag = true.
Proof.
  intros Hn Ht. unfold Crypto.gcm_arguments_ok. now rewrite Hn, Ht.
Qed.

(** What was built is read back: the text returns, tags stripped and
    rotation undone. *)
Lemma text_round_trip text password e :
  encodable text -> encodable password ->
  exists payload e',
    build_payload_from_text text password None e = Ok (payload, e')
    /\ (64 <= length payload)%nat
    /\ ((forall i, is_byte (e i)) -> bytes_ok payload)
    /\ forall e'', extract_text_from_payload payload password e'' = Ok text.
Proof.
  intros Ht Hp.
  destruct (build_payload_shape text password e Ht Hp)
    as (utf8_bytes & pw & key & Hu & Hpw & Hk & Hkey & Hbuild & Htag & Hct
        & Hb & Hlen).
  cbv zeta in Hk, Hbuild, Htag, Hct.
  set (salt := fst (Crypto.os_urandom 16 e)) in *.
  set (e1 := snd (Crypto.os_urandom 16 e)) in *.
  set (nonce := fst (Crypto.os_urandom 12 e1)) in *.
  assert (Hsalt : length salt = 16%nat) by apply os_urandom_spec.
  assert (Hnonce : length nonce = 12%nat) by apply os_urandom_spec.
  eexists _, _. split; [exact Hbuild|]. split; [|split].
  - rewrite !length_app, Hsalt, Hnonce, Htag, Hct. lia.
  - intros He.
    destruct (Crypto.encrypt_bytes key nonce utf8_bytes Hb) as [Hc Hg].
    repeat apply bytes_ok_app; try assumption; apply os_urandom_spec;
      intros i; apply He.
  - intros e''. unfold extract_text_from_payload.
    rewrite unpack_pack by assumption. cbn [bind].
    rewrite (proj1 (derive_key_default password salt e'' pw Hpw)), Hk.
    cbn [bind].
    unfold Crypto.decrypt_with_aes_gcm. rewrite Hkey.
    rewrite gcm_arguments_default by assumption.
    rewrite Crypto.decrypt_encrypt by assumption. cbn [bind].
    destruct (utf8_round_trip _ (rotate_letters_encodable _
                (Z.of_nat (length password)) (tagged_encodable text Ht)))
      as (bs & Hu' & _ & _ & Hd).
    rewrite Hu in Hu'. injection Hu' as <-.
    unfold bytes_to_text. rewrite <- (app_nil_r utf8_bytes), Hd.
    cbn [utf8_decode bind]. rewrite app_nil_r, rotate_letters_inverse.
    destruct (strip_tags text) as [Htags Hslice]. cbv zeta in Htags, Hslice.
    rewrite Htags. f_equal. exact Hslice.
Qed.

End WithLaws.

(** ** The degenerate primitives satisfy the laws *)

Lemma bytes_ok_of_forallb bs :
  forallb (fun b => (0 <=? b) && (b <? 256)) bs = true -> bytes_ok bs.
Proof.
  intros H. rewrite forallb_forall in H. apply Forall_forall. intros x Hx.
  specialize (H x Hx). apply andb_prop in H as [H0 H1].
  apply Z.leb_le in H0. apply Z.ltb_lt in H1. split; assumption.
Qed.

Lemma null_primitives_laws : Crypto.PrimitivesLaws Examples.null_primitives.
Proof.
  constructor;
    cbv [Crypto.pbkdf2_hmac_sha256 Crypto.PBKDF2HMAC Crypto.aes_gcm_encrypt
         Crypto.aes_gcm_decrypt Examples.null_primitives fst snd].
  - intros len salt iters pw Hlen Hit.
    destruct (Z.ltb_spec 0 len); [|lia]. destruct (Z.ltb_spec 0 iters); [|lia].
    cbn [andb bind]. eexists. split; [reflexivity|]. apply repeat_length.
  - reflexivity.
  - reflexivity.
  - intros _ _ pt Hpt. split; [exact Hpt|]. now apply bytes_ok_of_forallb.
  - intros. now rewrite list_eqb_refl.
Qed.

Lemma zero_entropy_bytes i : is_byte (Examples.zero_entropy i).
Proof. unfold Examples.zero_entropy, is_byte. lia. Qed.

Lemma repeat_pixels_ok n p k :
  pixel_ok n p -> Forall (pixel_ok n) (repeat p k).
Proof.
  intros H. apply Forall_forall. intros x Hx. apply repeat_spec in Hx.
  now subst x.
Qed.

Lemma rgb_row_ok n : image_ok (Examples.rgb_row n).
Proof.
  exists 3%nat. cbn. split; [reflexivity|]. split.
  - rewrite repeat_length. lia.
  - apply repeat_pixels_ok. cbn. split; [lia|]. split; [reflexivity|].
    now apply bytes_ok_of_forallb.
Qed.

Lemma rgba_row_ok n : image_ok (Examples.rgba_row n).
Proof.
  exists 4%nat. cbn. split; [reflexivity|]. split.
  - rewrite repeat_length. lia.
  - apply repeat_pixels_ok. cbn. split; [lia|]. split; [reflexivity|].
    now apply bytes_ok_of_forallb.
Qed.

Lemma rgba_square_ok : image_ok Examples.rgba_square.
Proof.
  exists 4%nat. cbn. split; [reflexivity|]. split; [reflexivity|].
  apply (repeat_pixels_ok 4 _ 400). cbn. split; [lia|].
  split; [reflexivity|]. now apply bytes_ok_of_forallb.
Qed.

Lemma rgb_rect_ok : image_ok Examples.rgb_rect.
Proof.
  exists 3%nat. cbn. split; [reflexivity|]. split; [reflexivity|].
  apply (repeat_pixels_ok 3 _ 200). cbn. split; [lia|].
  split; [reflexivity|]. now apply bytes_ok_of_forallb.
Qed.

Lemma hello_encodable :
  encodable Examples.hello /\ encodable Examples.secret123.
Proof. split; repeat constructor. Qed.

(** ** The statements of the specification *)

(** C10. For [lsb_count] from 1 to 8, every byte of the modified channel
    stream that [embed_payload_into_image] builds agrees with the input
    channel byte at the same position on all bits above the low [lsb_count]
    bits, so the two differ by at most [2 ^ lsb_count - 1]; on a supported
    image the same holds between the channel stream of the returned image
    and that of the input image. *)
Theorem embedding_confined_to_low_bits
    (image : Image) (payload payload_with_header : list Z)
    (include_alpha : bool) (lsb_count : nat) :
  (1 <= lsb_count <= 8)%nat ->
  bytes_ok (_iter_channel_bytes image include_alpha) ->
  Forall2 (confined lsb_count)
    (_iter_channel_bytes image include_alpha)
    (modified_stream lsb_count payload_with_header
       (_iter_channel_bytes image include_alpha))
  /\ (forall out,
        image_ok image -> supported (mode image) include_alpha ->
        embed_payload_into_image image payload include_alpha lsb_count = Ok out ->
        Forall2 (confined lsb_count)
          (_iter_channel_bytes image include_alpha)
          (_iter_channel_bytes out include_alpha)).
Proof.
  intros Hlsb Hbytes. split.
  - rewrite modified_stream_embed_bits. apply embed_bits_confined; [lia|].
    exact Hbytes.
  - intros out Hok Hs Hout. unfold embed_payload_into_image in Hout.
    destruct (with_header payload) as [pwh|] eqn:Hh; [|discriminate].
    cbn [bind] in Hout.
    destruct (_ >? _); [discriminate|].
    destruct (iter_channel_bytes_ok image include_alpha Hok) as [Hstream _].
    destruct (supported_cases _ _ Hs) as [_ Hk].
    apply iter_channels_to_image in Hout as [-> _]; [|exact Hs| |].
    + rewrite modified_stream_embed_bits. apply embed_bits_confined; [lia|].
      exact Hbytes.
    + rewrite length_modified_stream, Hstream, Hk. lia.
    + rewrite modified_stream_embed_bits. apply embed_bits_bytes; [lia|].
      exact Hbytes.
Qed.

Lemma embedding_confined_to_low_bits_witness :
  Forall2 (confined 2)
    (_iter_channel_bytes (Examples.rgb_row 14) false)
    (modified_stream 2 [0; 0; 0; 1; 65]
       (_iter_channel_bytes (Examples.rgb_row 14) false)).
Proof.
  refine (proj1 (embedding_confined_to_low_bits (Examples.rgb_row 14) [65]
                   [0; 0; 0; 1; 65] false 2 _ _)).
  - lia.
  - apply iter_channel_bytes_ok, rgb_row_ok.
Defined.

(** With the alpha channel excluded, embedding into an RGBA image that has
    a pixel and passes the capacity check stops at the unbound name. *)
Lemma embed_rgba_without_alpha image payload lsb_count :
  image_ok image -> mode image = "RGBA"%string ->
  (0 < width image * height image)%nat ->
  Z.of_nat (length payload) < 2 ^ 32 ->
  8 * (Z.of_nat (length payload) + 4)
  <= Z.of_nat (width image) * Z.of_nat (height image) * 4 * Z.of_nat lsb_count ->
  embed_payload_into_image image payload false lsb_count
  = Err (NameError "original_pixel").
Proof.
  intros Hok Hm Hpx Hlen Hcap.
  destruct (with_header_ok payload Hlen) as (header & Hh & Hl & _).
  rewrite (embed_payload_unfold image payload false lsb_count header)
    by assumption.
  apply channels_to_image_rgba_without_alpha; [exact Hm|exact Hpx|].
  rewrite length_modified_stream.
  rewrite (proj1 (iter_channel_bytes_ok image false Hok)), Hm.
  cbn [usable_channels String.eqb Ascii.eqb Bool.eqb]. cbn. lia.
Qed.

(** C4. The specification asks that embedding into an RGBA image with
    [include_alpha = false] returns an image that carries the original alpha
    byte of every pixel. The code does not: for every RGBA image with at
    least one pixel and every payload that passes the capacity check, the
    rebuild reads the alpha byte from [original_pixel], which is bound
    nowhere, and the call ends in [NameError]; no image is returned. *)
Theorem alpha_channel_not_carried_forward
    (image : Image) (payload : list Z) (lsb_count : nat) :
  image_ok image -> mode image = "RGBA"%string ->
  (0 < width image * height image)%nat ->
  Z.of_nat (length payload) < 2 ^ 32 ->
  8 * (Z.of_nat (length payload) + 4)
  <= Z.of_nat (width image) * Z.of_nat (height image) * 4 * Z.of_nat lsb_count ->
  embed_payload_into_image image payload false lsb_count
  = Err (NameError "original_pixel").
Proof. apply embed_rgba_without_alpha. Qed.

Lemma alpha_channel_not_carried_forward_witness :
  embed_payload_into_image (Examples.rgba_row 11) [65] false 2
  = Err (NameError "original_pixel").
Proof.
  apply (alpha_channel_not_carried_forward (Examples.rgba_row 11) [65] 2).
  - apply rgba_row_ok.
  - reflexivity.
  - cbn. lia.
  - cbn. lia.
  - cbn. lia.
Defined.

(** C2. The specification asks for [CapacityError] exactly when the required bits
    exceed the usable channel bytes times [lsb_count]. The code compares
    with [width * height * (3 if include_alpha else 4) * lsb_count] instead:
    on an RGB row of 11 pixels (33 usable channel bytes) a framed payload of
    [33 / 8 + 1 = 5] bytes needs 40 bits, more than the 33 there are, and is
    accepted; the image returned holds the first 33 bits only, and
    extraction from it fails. *)
Theorem capacity_check_miscounts_channels :
  length (_iter_channel_bytes (Examples.rgb_row 11) false) = 33%nat
  /\ with_header [65] = Ok [0; 0; 0; 1; 65]
  /\ 8 * Z.of_nat (length [0; 0; 0; 1; 65]) > 33 * 1
  /\ exists out,
       embed_payload_into_image (Examples.rgb_row 11) [65] false 1 = Ok out
       /\ extract_payload_from_image out false 1
          = Err (FormatError "Payload length mismatch").
Proof.
  split; [reflexivity|]. split; [reflexivity|]. split; [reflexivity|].
  eexists. split; vm_compute; reflexivity.
Qed.

(** C5. The specification asks that extraction returns the embedded payload whenever
    the payload fits the usable channel bytes. On RGBA images the code does
    not: with the alpha channel excluded the rebuild ends in [NameError]
    (33 usable channel bytes, 32 bits needed), and with the alpha channel
    included the capacity check counts 3 channels per pixel and refuses a
    payload that fits (40 usable channel bytes, 32 bits needed). *)
Theorem round_trip_breaks_on_rgba :
  (8 * (Z.of_nat (length (@nil Z)) + 4)
   <= Z.of_nat (length (_iter_channel_bytes (Examples.rgba_row 11) false)) * 1
   /\ embed_payload_into_image (Examples.rgba_row 11) [] false 1
      = Err (NameError "original_pixel"))
  /\ (8 * (Z.of_nat (length (@nil Z)) + 4)
      <= Z.of_nat (length (_iter_channel_bytes (Examples.rgba_row 10) true)) * 1
      /\ embed_payload_into_image (Examples.rgba_row 10) [] true 1
         = Err (CapacityError 32 30)).
Proof.
  split; (split; [vm_compute; discriminate|vm_compute; reflexivity]).
Qed.

Lemma with_header_framed payload pwh :
  with_header payload = Ok pwh ->
  framed pwh /\ length pwh = (4 + length payload)%nat
  /\ skipn 4 pwh = payload.
Proof.
  unfold with_header. intros H.
  destruct (Z_lt_ge_dec (Z.of_nat (length payload)) (2 ^ 32)) as [Hlt|Hge].
  - destruct (struct_pack_I_ok (Z.of_nat (length payload)) ltac:(lia))
      as (header & Hh & Hl & _ & He).
    rewrite Hh in H. cbn [bind] in H. injection H as <-.
    unfold framed. rewrite length_app, Hl.
    rewrite (firstn_app_exact header), (skipn_app_exact header) by exact Hl.
    repeat split; [lia|exact He].
  - rewrite struct_pack_I_err in H by lia. discriminate.
Qed.

(** C3, as the code has it. [build_payload_from_text] returns the packed
    payload itself, with no length header in front: the salt, which is the
    first 16 bytes of the random source, the nonce, which is the next 12,
    and the tag and the ciphertext that AES-GCM gives for the UTF-8 bytes of
    the tagged and rotated text under the key that PBKDF2 derives from the
    password and that salt with 100000 iterations and 32 bytes, in this
    order. [unpack_encrypted_payload] splits it into these four parts again.
    It has 16 + 12 + 16 bytes and a ciphertext as long as the encoded text,
    which is at least the tagged text, 64 bytes or more. The 4-byte
    big-endian header equal to the length of the packed payload is put in
    front afterwards, by [embed_payload_into_image], which checks the
    capacity for the payload with that header and embeds the bits of the
    header and then of the payload; the payload with that header is a
    FramedPayload of at least 48 bytes. *)
Theorem build_payload_is_packed_payload
    (P : Crypto.Primitives) (L : Crypto.PrimitivesLaws P)
    (text password : list Z) (e : Crypto.entropy) :
  encodable text -> encodable password ->
  exists utf8_bytes pw key,
    let salt := fst (Crypto.os_urandom 16 e) in
    let e1 := snd (Crypto.os_urandom 16 e) in
    let nonce := fst (Crypto.os_urandom 12 e1) in
    let ciphertext := fst (Crypto.aes_gcm_encrypt key nonce utf8_bytes) in
    let tag := snd (Crypto.aes_gcm_encrypt key nonce utf8_bytes) in
    let payload := salt ++ nonce ++ tag ++ ciphertext in
    text_to_bytes (rotate_letters (START_TAG ++ text ++ END_TAG)
                                  (Z.of_nat (length password)))
    = Ok utf8_bytes
    /\ utf8_encode password = Ok pw
    /\ Crypto.pbkdf2_hmac_sha256 32 salt 100000 pw = Ok key
    /\ build_payload_from_text text password None e
       = Ok (payload, snd (Crypto.os_urandom 12 e1))
    /\ Crypto.pack_encrypted_payload salt nonce tag ciphertext = Ok payload
    /\ Crypto.unpack_encrypted_payload payload
       = Ok (salt, nonce, tag, ciphertext)
    /\ length salt = 16%nat /\ length nonce = 12%nat /\ length tag = 16%nat
    /\ length ciphertext = length utf8_bytes
    /\ (length text + 20 <= length ciphertext)%nat
    /\ (64 <= length payload)%nat
    /\ (forall payload_with_header,
          with_header payload = Ok payload_with_header ->
          framed payload_with_header
          /\ skipn 4 payload_with_header = payload
          /\ (48 <= length payload_with_header)%nat)
    /\ (Z.of_nat (length payload) < 2 ^ 32 ->
        exists header,
          length header = 4%nat
          /\ big_endian header = Z.of_nat (length payload)
          /\ with_header payload = Ok (header ++ payload)
          /\ forall image (include_alpha : bool) lsb_count,
               let required_bits :=
                 calculate_required_bits_for_payload
                   (Z.of_nat (length (header ++ payload))) lsb_count in
               let available_bits :=
                 Z.of_nat (width image) * Z.of_nat (height image)
                 * (if include_alpha then 3 else 4) * Z.of_nat lsb_count in
               embed_payload_into_image image payload include_alpha lsb_count
               = if required_bits >? available_bits then
                   Err (CapacityError required_bits available_bits)
                 else
                   _channels_to_image image
                     (modified_stream lsb_count (header ++ payload)
                        (_iter_channel_bytes image include_alpha))
                     include_alpha).
Proof.
  intros Ht Hp.
  destruct (build_payload_shape text password e Ht Hp)
    as (utf8_bytes & pw & key & Hu & Hpw & Hk & _ & Hbuild & Htag & Hct
        & Hb & Hlen).
  cbv zeta in Hk, Hbuild, Htag, Hct.
  exists utf8_bytes, pw, key. cbv zeta.
  assert (Hs : length (fst (Crypto.os_urandom 16 e)) = 16%nat)
    by apply os_urandom_spec.
  assert (Hn : length (fst (Crypto.os_urandom 12 (snd (Crypto.os_urandom 16 e))))
               = 12%nat) by apply os_urandom_spec.
  split; [exact Hu|]. split; [exact Hpw|]. split; [exact Hk|].
  split; [exact Hbuild|].
  split; [now apply pack_ok|]. split; [now apply unpack_pack|].
  split; [exact Hs|]. split; [exact Hn|]. split; [exact Htag|].
  split; [exact Hct|]. split; [lia|].
  split; [rewrite !length_app; lia|]. split.
  - intros pwh Hpwh. destruct (with_header_framed _ _ Hpwh) as (Hf & Hl & Hsk).
    split; [exact Hf|]. split; [exact Hsk|]. rewrite Hl, !length_app. lia.
  - intros Hsmall.
    destruct (with_header_ok _ Hsmall) as (header & Hh & Hl & _ & He).
    exists header. split; [exact Hl|]. split; [exact He|].
    split; [exact Hh|].
    intros image include_alpha lsb_count.
    unfold embed_payload_into_image. rewrite Hh. reflexivity.
Qed.

Lemma build_payload_is_packed_payload_witness :
  exists salt nonce tag ciphertext e',
    @build_payload_from_text Examples.null_primitives
      Examples.hello Examples.secret123 None Examples.zero_entropy
    = Ok (salt ++ nonce ++ tag ++ ciphertext, e')
    /\ @Crypto.unpack_encrypted_payload (salt ++ nonce ++ tag ++ ciphertext)
       = Ok (salt, nonce, tag, ciphertext)
    /\ length salt = 16%nat /\ length nonce = 12%nat /\ length tag = 16%nat
    /\ (64 <= length (salt ++ nonce ++ tag ++ ciphertext))%nat.
Proof.
  destruct (build_payload_is_packed_payload Examples.null_primitives
              null_primitives_laws Examples.hello Examples.secret123
              Examples.zero_entropy (proj1 hello_encodable)
              (proj2 hello_encodable))
    as (utf8_bytes & pw & key & _ & _ & _ & H & _ & Hu & Hs & Hn & Ht & _ & _
        & Hl & _).
  eexists _, _, _, _, _. split; [exact H|]. split; [exact Hu|]. auto.
Defined.

(** C3, as the specification states it, fails: the bytes that
    [build_payload_from_text] returns begin with the salt, not with a length
    header. With a salt of zero bytes the first four bytes read as length 0,
    while 60 bytes follow them. *)
Lemma build_payload_not_framed :
  ~ (forall (P : Crypto.Primitives), Crypto.PrimitivesLaws P ->
     forall text password e payload e',
       build_payload_from_text text password None e = Ok (payload, e') ->
       framed payload).
Proof.
  intros H.
  specialize (H Examples.null_primitives null_primitives_laws []
                Examples.secret123 Examples.zero_entropy).
  assert (E : exists payload e',
             @build_payload_from_text Examples.null_primitives []
               Examples.secret123 None Examples.zero_entropy
             = Ok (payload, e')
             /\ big_endian (firstn 4 payload) = 0
             /\ length (skipn 4 payload) = 60%nat).
  { eexists _, _. split; [vm_compute; reflexivity|]. split; reflexivity. }
  destruct E as (payload & e' & Hb & H0 & H60).
  destruct (H payload e' Hb) as [_ Hf]. rewrite H0, H60 in Hf. discriminate.
Qed.

Lemma build_payload_length
    (P : Crypto.Primitives) (L : Crypto.PrimitivesLaws P)
    text password e payload e' :
  encodable text -> encodable password ->
  build_payload_from_text text password None e = Ok (payload, e') ->
  exists utf8_bytes,
    utf8_encode (rotate_letters (START_TAG ++ text ++ END_TAG)
                                (Z.of_nat (length password))) = Ok utf8_bytes
    /\ length payload = (44 + length utf8_bytes)%nat.
Proof.
  intros Ht Hp Hb.
  destruct (build_payload_shape text password e Ht Hp)
    as (utf8_bytes & pw & key & Hu & _ & _ & _ & Hbuild & Htag & Hct & _).
  cbv zeta in Hbuild, Htag, Hct. exists utf8_bytes. split; [exact Hu|].
  rewrite Hb in Hbuild.
  apply (f_equal (fun r => match r with
                           | Ok (p, _) => length p
                           | Err _ => 0%nat
                           end)) in Hbuild.
  cbv beta iota in Hbuild. rewrite Hbuild.
  rewrite !length_app, Htag, Hct, !(proj1 (os_urandom_spec _ _)). lia.
Qed.

(** C1. The text comes back from the payload that was built from it, for
    every encodable text and password. Through an image it does not always:
    a 20 by 20 RGBA image offers 1200 usable channel bytes, enough for the
    91 framed bytes of the message of the integration test, and with the
    default [include_alpha = false] the embedding ends in [NameError]. *)
Theorem text_round_trip_breaks_on_rgba
    (P : Crypto.Primitives) (L : Crypto.PrimitivesLaws P) (e : Crypto.entropy) :
  exists payload e',
    build_payload_from_text Examples.hello Examples.secret123 None e
    = Ok (payload, e')
    /\ (forall e'',
          extract_text_from_payload payload Examples.secret123 e''
          = Ok Examples.hello)
    /\ 8 * (Z.of_nat (length payload) + 4)
       <= Z.of_nat (length (_iter_channel_bytes Examples.rgba_square false)) * 1
    /\ embed_payload_into_image Examples.rgba_square payload false 1
       = Err (NameError "original_pixel").
Proof.
  destruct hello_encodable as [Ht Hp].
  destruct (text_round_trip Examples.hello Examples.secret123 e Ht Hp)
    as (payload & e' & Hb & _ & _ & Hx).
  exists payload, e'. split; [exact Hb|]. split; [exact Hx|].
  destruct (build_payload_length P L _ _ _ _ _ Ht Hp Hb)
    as (utf8_bytes & Hu & Hlen).
  vm_compute in Hu. injection Hu as <-. cbn [length Nat.add] in Hlen.
  rewrite Hlen. split; [vm_compute; discriminate|].
  apply embed_rgba_without_alpha.
  - apply rgba_square_ok.
  - reflexivity.
  - cbn. lia.
  - rewrite Hlen. cbn. lia.
  - rewrite Hlen. cbn. lia.
Qed.

Lemma text_round_trip_breaks_on_rgba_witness :
  exists payload e',
    @build_payload_from_text Examples.null_primitives
      Examples.hello Examples.secret123 None Examples.zero_entropy
    = Ok (payload, e')
    /\ embed_payload_into_image Examples.rgba_square payload false 1
       = Err (NameError "original_pixel").
Proof.
  destruct (text_round_trip_breaks_on_rgba Examples.null_primitives
              null_primitives_laws Examples.zero_entropy)
    as (payload & e' & Hb & _ & _ & He).
  exists payload, e'. split; assumption.
Defined.

(** * Further properties of the code *)

(** ** The rotation cipher *)

Lemma rotate_char_compose a b c :
  rotate_char b (rotate_char a c) = rotate_char (a + b) c.
Proof.
  destruct (is_letter_cases c) as [[Hc _]|[[Hc _]|Hc]].
  - rewrite (rotate_char_lower a c Hc), (rotate_char_lower (a + b) c Hc).
    pose proof (Z.mod_pos_bound (c - 0x61 + a) 26 ltac:(lia)) as Hm.
    rewrite rotate_char_lower by lia. f_equal.
    replace ((c - 97 + a) mod 26 + 97 - 97 + b)
      with ((c - 97 + a) mod 26 + b) by lia.
    rewrite Zplus_mod_idemp_l. f_equal. lia.
  - rewrite (rotate_char_upper a c Hc), (rotate_char_upper (a + b) c Hc).
    pose proof (Z.mod_pos_bound (c - 0x41 + a) 26 ltac:(lia)) as Hm.
    rewrite rotate_char_upper by lia. f_equal.
    replace ((c - 65 + a) mod 26 + 65 - 65 + b)
      with ((c - 65 + a) mod 26 + b) by lia.
    rewrite Zplus_mod_idemp_l. f_equal. lia.
  - rewrite (rotate_char_not_letter a c Hc).
    now rewrite !rotate_char_not_letter.
Qed.

Lemma rotate_char_mod shift c :
  rotate_char shift c = rotate_char (shift mod 26) c.
Proof.
  destruct (is_letter_cases c) as [[Hc _]|[[Hc _]|Hc]].
  - rewrite !rotate_char_lower by exact Hc. f_equal.
    now rewrite Zplus_mod_idemp_r.
  - rewrite !rotate_char_upper by exact Hc. f_equal.
    now rewrite Zplus_mod_idemp_r.
  - now rewrite !rotate_char_not_letter.
Qed.

Lemma rotate_char_zero c : rotate_char 0 c = c.
Proof.
  destruct (is_letter_cases c) as [[Hc _]|[[Hc _]|Hc]].
  - rewrite rotate_char_lower by exact Hc.
    rewrite Z.add_0_r, Z.mod_small; lia.
  - rewrite rotate_char_upper by exact Hc.
    rewrite Z.add_0_r, Z.mod_small; lia.
  - now rewrite rotate_char_not_letter.
Qed.

(** X1. Two rotations compose into the rotation by the sum of the shifts,
    and only the shift modulo 26 matters: shifts that are congruent modulo
    26 rotate every text alike, and a multiple of 26 leaves every text as it
    is. *)
Theorem rotate_letters_compose (t : list Z) (a b : Z) :
  rotate_letters (rotate_letters t a) b = rotate_letters t (a + b)
  /\ (a mod 26 = b mod 26 -> rotate_letters t a = rotate_letters t b)
  /\ rotate_letters t (26 * a) = t.
Proof.
  rewrite !rotate_letters_map, map_map. split; [|split].
  - apply map_ext. intros c. apply rotate_char_compose.
  - intros H. apply map_ext. intros c.
    now rewrite (rotate_char_mod a), (rotate_char_mod b), H.
  - rewrite <- (map_id t) at 2. apply map_ext. intros c.
    rewrite rotate_char_mod, Z.mul_comm, Z_mod_mult. apply rotate_char_zero.
Qed.

Lemma rotate_letters_compose_witness :
  rotate_letters Examples.hello 9 = rotate_letters Examples.hello 35.
Proof.
  apply (proj1 (proj2 (rotate_letters_compose Examples.hello 9 35))).
  reflexivity.
Defined.

Lemma rotate_char_letter shift c :
  is_letter (rotate_char shift c) = is_letter c.
Proof.
  destruct (is_letter_cases c) as [[Hc Hl]|[[Hc Hl]|Hc]].
  - rewrite rotate_char_lower, Hl by exact Hc.
    pose proof (Z.mod_pos_bound (c - 0x61 + shift) 26 ltac:(lia)).
    unfold is_letter. decide_tests; reflexivity.
  - rewrite rotate_char_upper, Hl by exact Hc.
    pose proof (Z.mod_pos_bound (c - 0x41 + shift) 26 ltac:(lia)).
    unfold is_letter. decide_tests; reflexivity.
  - now rewrite rotate_char_not_letter.
Qed.

(** X2. Rotation keeps the length of the text and the kind of every
    character: position by position, a lowercase letter becomes a lowercase
    letter, an uppercase letter an uppercase letter, and any other character
    stays the same character. *)
Theorem rotate_letters_shape (t : list Z) (shift : Z) :
  length (rotate_letters t shift) = length t
  /\ Forall2
       (fun c r =>
          (0x61 <= c <= 0x7A -> 0x61 <= r <= 0x7A)
          /\ (0x41 <= c <= 0x5A -> 0x41 <= r <= 0x5A)
          /\ (is_letter c = false -> r = c))
       t (rotate_letters t shift).
Proof.
  split; [apply length_rotate_letters|].
  rewrite rotate_letters_map. induction t as [|c t IH]; cbn [map];
    constructor; [|exact IH].
  split; [|split].
  - intros Hc. rewrite rotate_char_lower by exact Hc.
    pose proof (Z.mod_pos_bound (c - 0x61 + shift) 26 ltac:(lia)). lia.
  - intros Hc. rewrite rotate_char_upper by exact Hc.
    pose proof (Z.mod_pos_bound (c - 0x41 + shift) 26 ltac:(lia)). lia.
  - apply rotate_char_not_letter.
Qed.

(** ** The bit codec *)

Lemma byte_bits_msb_value b7 b6 b5 b4 b3 b2 b1 b0 :
  byte_bits (msb_value [b7; b6; b5; b4; b3; b2; b1; b0])
  = [b7; b6; b5; b4; b3; b2; b1; b0].
Proof. destruct b7, b6, b5, b4, b3, b2, b1, b0; reflexivity. Qed.

Lemma expand_group8 bits :
  expand (group8 bits) = firstn (8 * (length bits / 8)) bits.
Proof.
  remember (length bits) as n eqn:Hn.
  revert bits Hn. induction n as [n IH] using lt_wf_ind. intros bits Hn.
  destruct (Nat.lt_ge_cases n 8) as [Hlt|Hge].
  - rewrite group8_short by lia. rewrite Nat.div_small by lia. reflexivity.
  - subst n. do 8 (destruct bits as [|? bits]; [cbn [length] in Hge; lia|]).
    cbn [group8 length]. unfold expand. cbn [flat_map].
    fold (expand (group8 bits)).
    rewrite byte_bits_msb_value, (IH (length bits));
      [|cbn [length]; lia|reflexivity].
    replace (S (S (S (S (S (S (S (S (length bits)))))))))
      with (length bits + 1 * 8)%nat by lia.
    rewrite Nat.div_add by lia.
    replace (8 * (length bits / 8 + 1))%nat
      with (8 + 8 * (length bits / 8))%nat by lia.
    reflexivity.
Qed.

(** X3. Expanding the bytes that were packed from a bit list gives back the
    bits of the complete groups of 8: the whole list when its length is a
    multiple of 8, and otherwise all but the trailing partial group. The
    packed bytes number [len(bits) // 8] and each lies in [0, 255]. *)
Theorem bits_to_bytes_then_bytes_to_bits (bits : list bool) :
  bytes_to_bits (bits_to_bytes bits) = firstn (8 * (length bits / 8)) bits
  /\ length (bits_to_bytes bits) = (length bits / 8)%nat
  /\ bytes_ok (bits_to_bytes bits)
  /\ ((length bits mod 8 = 0)%nat ->
      bytes_to_bits (bits_to_bytes bits) = bits).
Proof.
  rewrite bytes_to_bits_expand, bits_to_bytes_group8, expand_group8.
  split; [reflexivity|]. split; [apply length_group8|].
  split; [apply group8_bytes|].
  intros Hm. apply firstn_all2.
  pose proof (Nat.div_mod_eq (length bits) 8). lia.
Qed.

Lemma bits_to_bytes_then_bytes_to_bits_witness :
  bytes_to_bits
    (bits_to_bytes [true; false; true; true; false; false; true; false])
  = [true; false; true; true; false; false; true; false].
Proof.
  apply (proj2 (proj2 (proj2 (bits_to_bytes_then_bytes_to_bits
           [true; false; true; true; false; false; true; false])))).
  reflexivity.
Defined.

Lemma rotate_letters_shape_witness :
  length (rotate_letters Examples.hello 9) = length Examples.hello.
Proof. exact (proj1 (rotate_letters_shape Examples.hello 9)). Defined.

(** ** Text and bytes *)

(** X4. Encoding a text as UTF-8 and decoding the bytes gives the text
    back, for every text without surrogate code points; the encoding is a
    byte sequence of between one and four bytes per character. *)
Theorem text_bytes_round_trip (t : list Z) :
  encodable t ->
  exists data,
    text_to_bytes t = Ok data
    /\ bytes_to_text data = Ok t
    /\ bytes_ok data
    /\ (length t <= length data <= 4 * length t)%nat.
Proof.
  intros Ht. destruct (utf8_round_trip t Ht) as (bs & He & Hb & Hl & Hd).
  exists bs. unfold text_to_bytes, bytes_to_text.
  split; [exact He|]. split; [|split; assumption].
  rewrite <- (app_nil_r bs), Hd. cbn [utf8_decode bind].
  now rewrite app_nil_r.
Qed.

Lemma text_bytes_round_trip_witness :
  exists data,
    text_to_bytes Examples.hello = Ok data
    /\ bytes_to_text data = Ok Examples.hello
    /\ bytes_ok data
    /\ (length Examples.hello <= length data <= 4 * length Examples.hello)%nat.
Proof.
  exact (text_bytes_round_trip Examples.hello (proj1 hello_encodable)).
Defined.

Lemma utf8_encode_not_scalar before c after :
  scalar c = false ->
  utf8_encode (before ++ c :: after) = Err UnicodeEncodeError.
Proof.
  intros Hc. induction before as [|b before IH]; cbn [app utf8_encode].
  - unfold utf8_encode_char. rewrite Hc. reflexivity.
  - rewrite IH. destruct (utf8_encode_char b) as [bs|e] eqn:E; [reflexivity|].
    cbn [bind]. unfold utf8_encode_char in E.
    destruct (negb (scalar b)); [congruence|].
    destruct (b <? 128); [discriminate|].
    destruct (b <? 2048); [discriminate|].
    destruct (b <? 65536); discriminate.
Qed.

(** X5. A text with a surrogate code point in it ([U+D800] to [U+DFFF])
    cannot be encoded: [text_to_bytes] raises [UnicodeEncodeError], and so
    does [build_payload_from_text] on such a text, whatever the password,
    the KDF parameters and the random source are, and whatever PBKDF2 and
    AES-GCM return or raise. *)
Theorem surrogates_are_refused
    (P : Crypto.Primitives) (before after password : list Z) (c : Z)
    (kdf_params : option Crypto.dict) (e : Crypto.entropy) :
  0xD800 <= c <= 0xDFFF ->
  text_to_bytes (before ++ c :: after) = Err UnicodeEncodeError
  /\ build_payload_from_text (before ++ c :: after) password kdf_params e
     = Err UnicodeEncodeError.
Proof.
  intros Hc.
  assert (Hs : scalar c = false).
  { unfold scalar, is_surrogate. decide_tests; reflexivity. }
  split; [now apply utf8_encode_not_scalar|].
  unfold build_payload_from_text, text_to_bytes.
  rewrite rotate_letters_map.
  replace (START_TAG ++ (before ++ c :: after) ++ END_TAG)
    with ((START_TAG ++ before) ++ c :: (after ++ END_TAG))
    by (now rewrite <- !app_assoc).
  rewrite map_app. cbn [map].
  rewrite (rotate_char_not_letter _ c)
    by (unfold is_letter; decide_tests; reflexivity).
  rewrite utf8_encode_not_scalar by exact Hs. reflexivity.
Qed.

Lemma surrogates_are_refused_witness :
  text_to_bytes (text_of_string "ab" ++ 0xD800 :: text_of_string "cd")
  = Err UnicodeEncodeError.
Proof.
  refine (proj1 (surrogates_are_refused Examples.null_primitives
                   (text_of_string "ab") (text_of_string "cd")
                   Examples.secret123 0xD800 None Examples.zero_entropy _)).
  lia.
Defined.

(** ** Keys and ciphertexts *)

(** X6. A key derived without a salt comes with a fresh salt of 16 bytes,
    the next 16 bytes of the random source, which is advanced by exactly
    that much; deriving again with the returned salt and the same parameters
    gives the same key and salt, whatever the state of the random source,
    and draws nothing from it. *)
Theorem derive_key_again_with_salt
    (P : Crypto.Primitives) (password key salt : list Z)
    (kdf_params : option Crypto.dict) (e e' : Crypto.entropy) :
  Crypto.derive_key_from_password password None kdf_params e
  = Ok (key, salt, e') ->
  length salt = 16%nat
  /\ salt = map e (seq 0 16)
  /\ (forall i, e' i = e (i + 16)%nat)
  /\ forall e'',
       Crypto.derive_key_from_password password (Some salt) kdf_params e''
       = Ok (key, salt, e'').
Proof.
  unfold Crypto.derive_key_from_password, Crypto.os_urandom.
  destruct (Crypto.PBKDF2HMAC _ _ _) as [k|] eqn:Hk; [|discriminate].
  cbn [bind].
  destruct (utf8_encode password) as [pw|]; [|discriminate]. cbn [bind].
  destruct (k pw) as [key0|] eqn:Hkey; [|discriminate]. cbn [bind].
  intros H.
  assert (Hs : salt = map e (seq 0 Crypto.SALT_LENGTH)) by congruence.
  assert (He : e' = fun i => e (i + Crypto.SALT_LENGTH)%nat) by congruence.
  assert (Hkey' : key = key0) by congruence.
  subst salt e' key.
  split; [reflexivity|]. split; [reflexivity|]. split; [reflexivity|].
  intros e''. rewrite Hk. cbn [bind]. rewrite Hkey. reflexivity.
Qed.

Lemma derive_key_again_with_salt_witness :
  @Crypto.derive_key_from_password Examples.null_primitives
    Examples.secret123 (Some (repeat 0 16)) None Examples.zero_entropy
  = Ok (repeat 0 32, repeat 0 16, Examples.zero_entropy).
Proof.
  refine (proj2 (proj2 (proj2
            (derive_key_again_with_salt Examples.null_primitives
               Examples.secret123 (repeat 0 32) (repeat 0 16) None
               Examples.zero_entropy
               (fun i => Examples.zero_entropy (i + 16)%nat) _)))
            Examples.zero_entropy).
  reflexivity.
Defined.

Lemma dict_get_missing d key default :
  (forall v, ~ In (key, v) d) -> Crypto.dict_get d key default = default.
Proof.
  induction d as [|[k v] d IH]; intros H; cbn [Crypto.dict_get];
    [reflexivity|].
  destruct (String.eqb_spec k key) as [->|Hk].
  - exfalso. apply (H v). now left.
  - apply IH. intros v' Hv'. apply (H v'). now right.
Qed.

Lemma dict_get_In d key v default :
  NoDup (map fst d) -> In (key, v) d -> Crypto.dict_get d key default = v.
Proof.
  induction d as [|[k w] d IH]; intros Hnd Hin; [destruct Hin|].
  cbn [Crypto.dict_get]. cbn [map fst] in Hnd.
  apply NoDup_cons_iff in Hnd as [Hk Hnd].
  destruct Hin as [Heq|Hin].
  - injection Heq as -> ->. now rewrite String.eqb_refl.
  - destruct (String.eqb_spec k key) as [->|_]; [|now apply IH].
    exfalso. apply Hk. change key with (fst (key, v)). now apply in_map.
Qed.

Lemma params_get_missing (d : Crypto.dict) key default :
  (forall v, ~ In (key, v) d) -> Crypto.params_get (Some d) key default = default.
Proof.
  intros H. unfold Crypto.params_get, Crypto.truthy.
  destruct d; [reflexivity|]. now apply dict_get_missing.
Qed.

Lemma params_get_In (d : Crypto.dict) key v default :
  NoDup (map fst d) -> In (key, v) d ->
  Crypto.params_get (Some d) key default = v.
Proof.
  intros Hnd Hin. unfold Crypto.params_get, Crypto.truthy.
  destruct d; [destruct Hin|]. now apply dict_get_In.
Qed.

(** X7. [derive_key_from_password] runs PBKDF2 with 100000 iterations and
    a key length of 32 bytes when [kdf_params] is [None] or the empty dict,
    and a parameter that a dict does not set keeps its default, key by key:
    a dict that sets only ["iterations"] gives that many iterations and a
    key length of 32, one that sets only ["length"] gives that key length
    and 100000 iterations, one that sets both gives both. The salt is the one
    passed, or else the next 16 bytes of the random source. *)
Theorem kdf_params_defaults
    (P : Crypto.Primitives) (password pw : list Z) (salt : option (list Z))
    (d : Crypto.dict) (its len : Z) (e : Crypto.entropy) :
  utf8_encode password = Ok pw ->
  NoDup (map fst d) ->
  let s := match salt with
           | None => fst (Crypto.os_urandom 16 e)
           | Some s => s
           end in
  let e' := match salt with
            | None => snd (Crypto.os_urandom 16 e)
            | Some _ => e
            end in
  let derived (iterations length : Z) :=
    key <- Crypto.pbkdf2_hmac_sha256 length s iterations pw ;;
    Ok (key, s, e') in
  Crypto.derive_key_from_password password salt None e = derived 100000 32
  /\ Crypto.derive_key_from_password password salt (Some []) e
     = derived 100000 32
  /\ ((forall v, ~ In ("iterations"%string, v) d) ->
      (forall v, ~ In ("length"%string, v) d) ->
      Crypto.derive_key_from_password password salt (Some d) e
      = derived 100000 32)
  /\ (In ("iterations"%string, its) d ->
      (forall v, ~ In ("length"%string, v) d) ->
      Crypto.derive_key_from_password password salt (Some d) e
      = derived its 32)
  /\ ((forall v, ~ In ("iterations"%string, v) d) ->
      In ("length"%string, len) d ->
      Crypto.derive_key_from_password password salt (Some d) e
      = derived 100000 len)
  /\ (In ("iterations"%string, its) d -> In ("length"%string, len) d ->
      Crypto.derive_key_from_password password salt (Some d) e
      = derived its len).
Proof.
  intros Hpw Hnd. cbv zeta.
  rewrite !(derive_key_unfold password salt _ e pw Hpw). cbv zeta.
  split; [reflexivity|]. split; [reflexivity|].
  split; [|split; [|split]].
  - intros Hi Hl. now rewrite !params_get_missing.
  - intros Hi Hl.
    now rewrite (params_get_In d "iterations" its),
      (params_get_missing d "length").
  - intros Hi Hl.
    now rewrite (params_get_In d "length" len),
      (params_get_missing d "iterations").
  - intros Hi Hl.
    now rewrite (params_get_In d "iterations" its),
      (params_get_In d "length" len).
Qed.

Lemma kdf_params_defaults_witness :
  @Crypto.derive_key_from_password Examples.null_primitives
    Examples.secret123 (Some (repeat 0 16))
    (Some [("iterations"%string, 5)]) Examples.zero_entropy
  = Ok (repeat 0 32, repeat 0 16, Examples.zero_entropy).
Proof.
  refine (eq_trans
    (proj1 (proj2 (proj2 (proj2
       (kdf_params_defaults Examples.null_primitives Examples.secret123
          Examples.secret123 (Some (repeat 0 16))
          [("iterations"%string, 5)] 5 32 Examples.zero_entropy _ _))))
       _ _) _).
  - reflexivity.
  - repeat constructor. intros [].
  - now left.
  - intros v [H|[]]. discriminate.
  - reflexivity.
Defined.

(** X8. What [encrypt_with_aes_gcm] returns, [decrypt_with_aes_gcm] opens:
    with a key of 16, 24 or 32 bytes the plaintext comes back; the nonce is
    the next 12 bytes of the random source, the tag has 16 bytes and the
    ciphertext the length of the plaintext. *)
Theorem decrypt_encrypt_round_trip
    (P : Crypto.Primitives) (L : Crypto.PrimitivesLaws P)
    (plaintext key : list Z) (e : Crypto.entropy) :
  bytes_ok plaintext -> Crypto.aes_key_ok key = true ->
  exists ciphertext nonce tag e',
    Crypto.encrypt_with_aes_gcm plaintext key e
    = Ok (ciphertext, nonce, tag, e')
    /\ nonce = map e (seq 0 12)
    /\ (forall i, e' i = e (i + 12)%nat)
    /\ length tag = 16%nat
    /\ length ciphertext = length plaintext
    /\ Crypto.decrypt_with_aes_gcm ciphertext key nonce tag = Ok plaintext.
Proof.
  intros Hpt Hkey.
  unfold Crypto.encrypt_with_aes_gcm, Crypto.decrypt_with_aes_gcm,
    Crypto.os_urandom.
  rewrite Hkey.
  pose proof (Crypto.encrypt_tag_length key
                (map e (seq 0 Crypto.NONCE_LENGTH)) plaintext) as Ht.
  pose proof (Crypto.encrypt_ciphertext_length key
                (map e (seq 0 Crypto.NONCE_LENGTH)) plaintext) as Hc.
  pose proof (Crypto.decrypt_encrypt key
                (map e (seq 0 Crypto.NONCE_LENGTH)) plaintext Hkey
                ltac:(now rewrite length_map, length_seq) Hpt) as Hd.
  destruct (Crypto.aes_gcm_encrypt key (map e (seq 0 Crypto.NONCE_LENGTH))
              plaintext) as [ct tag].
  cbn [fst snd] in *. eexists _, _, _, _. split; [reflexivity|].
  split; [reflexivity|]. split; [reflexivity|].
  split; [exact Ht|]. split; [exact Hc|].
  rewrite gcm_arguments_default
    by (try exact Ht; now rewrite length_map, length_seq).
  now rewrite Hd.
Qed.

Lemma decrypt_encrypt_round_trip_witness :
  exists ciphertext nonce tag e',
    @Crypto.encrypt_with_aes_gcm Examples.null_primitives [1; 2; 3]
      (repeat 0 32) Examples.zero_entropy
    = Ok (ciphertext, nonce, tag, e')
    /\ @Crypto.decrypt_with_aes_gcm Examples.null_primitives
         ciphertext (repeat 0 32) nonce tag = Ok [1; 2; 3].
Proof.
  destruct (decrypt_encrypt_round_trip Examples.null_primitives
              null_primitives_laws [1; 2; 3] (repeat 0 32)
              Examples.zero_entropy)
    as (ct & nonce & tag & e' & H & _ & _ & _ & _ & Hd).
  - now apply bytes_ok_of_forallb.
  - reflexivity.
  - exists ct, nonce, tag, e'. split; assumption.
Defined.

(** X9. A key whose length is not 16, 24 or 32 bytes is refused with
    [ValueError] by both [encrypt_with_aes_gcm] and [decrypt_with_aes_gcm];
    so [build_payload_from_text] fails with [ValueError] whenever
    [kdf_params] sets ["length"] to another size, for the sizes (1 to
    [2^31 - 1]) and the numbers of iterations (1 to [2^31 - 1]) for which
    PBKDF2 derives a key. *)
Theorem key_size_is_checked
    (P : Crypto.Primitives) (L : Crypto.PrimitivesLaws P)
    (text password plaintext key nonce tag : list Z) (d : Crypto.dict)
    (n : Z) (e : Crypto.entropy) :
  (Crypto.aes_key_ok key = false ->
   exists message,
     Crypto.encrypt_with_aes_gcm plaintext key e = Err (ValueError message)
     /\ Crypto.decrypt_with_aes_gcm plaintext key nonce tag
        = Err (ValueError message))
  /\ (encodable text -> encodable password ->
      NoDup (map fst d) -> In ("length"%string, n) d ->
      0 < n < 2147483648 -> n <> 16 -> n <> 24 -> n <> 32 ->
      0 < Crypto.params_get (Some d) "iterations" 100000 < 2147483648 ->
      exists message,
        build_payload_from_text text password (Some d) e
        = Err (ValueError message)).
Proof.
  split.
  - intros Hkey. unfold Crypto.encrypt_with_aes_gcm,
      Crypto.decrypt_with_aes_gcm, Crypto.os_urandom.
    rewrite Hkey. eauto.
  - intros Ht Hp Hnd Hin Hn H16 H24 H32 Hit.
    destruct (utf8_round_trip _ (rotate_letters_encodable _
                (Z.of_nat (length password)) (tagged_encodable text Ht)))
      as (utf8_bytes & Hu & _).
    destruct (utf8_round_trip password Hp) as (pw & Hpw & _).
    unfold build_payload_from_text, text_to_bytes. rewrite Hu. cbn [bind].
    rewrite (derive_key_unfold password None (Some d) e pw Hpw). cbv zeta.
    rewrite (params_get_In d "length" n 32 Hnd Hin).
    destruct (Crypto.pbkdf2_length n (fst (Crypto.os_urandom 16 e))
                (Crypto.params_get (Some d) "iterations" 100000) pw Hn Hit)
      as (k & -> & Hl).
    cbn [bind].
    unfold Crypto.encrypt_with_aes_gcm. cbn [Crypto.os_urandom].
    replace (Crypto.aes_key_ok k) with false; [cbn [bind]; eauto|].
    unfold Crypto.aes_key_ok. rewrite Hl.
    destruct (Nat.eqb_spec (Z.to_nat n) 16); [lia|].
    destruct (Nat.eqb_spec (Z.to_nat n) 24); [lia|].
    destruct (Nat.eqb_spec (Z.to_nat n) 32); [lia|]. reflexivity.
Qed.

Lemma key_size_is_checked_witness :
  exists message,
    @build_payload_from_text Examples.null_primitives Examples.hello
      Examples.secret123 (Some [("length"%string, 20)]) Examples.zero_entropy
    = Err (ValueError message).
Proof.
  apply (proj2 (key_size_is_checked Examples.null_primitives
                  null_primitives_laws Examples.hello Examples.secret123
                  [] [] [] [] [("length"%string, 20)] 20
                  Examples.zero_entropy));
    try apply hello_encodable; try lia.
  - repeat constructor. intros [].
  - now left.
  - cbn. lia.
Defined.

(** X10. The text that went into [build_payload_from_text] comes out of
    [extract_text_from_payload] under the same password: for every text and
    password without surrogates, with the default KDF parameters, whatever
    the random source yields; the payload has at least 64 bytes. *)
Theorem payload_text_round_trip
    (P : Crypto.Primitives) (L : Crypto.PrimitivesLaws P)
    (text password : list Z) (e : Crypto.entropy) :
  encodable text -> encodable password ->
  exists payload e',
    build_payload_from_text text password None e = Ok (payload, e')
    /\ (64 <= length payload)%nat
    /\ forall e'', extract_text_from_payload payload password e'' = Ok text.
Proof.
  intros Ht Hp.
  destruct (text_round_trip text password e Ht Hp)
    as (payload & e' & Hb & Hl & _ & Hx).
  exists payload, e'. auto.
Qed.

Lemma payload_text_round_trip_witness :
  exists payload e',
    @build_payload_from_text Examples.null_primitives Examples.hello
      Examples.secret123 None Examples.zero_entropy = Ok (payload, e')
    /\ (64 <= length payload)%nat
    /\ @extract_text_from_payload Examples.null_primitives payload
         Examples.secret123 Examples.zero_entropy = Ok Examples.hello.
Proof.
  destruct (payload_text_round_trip Examples.null_primitives
              null_primitives_laws Examples.hello Examples.secret123
              Examples.zero_entropy (proj1 hello_encodable)
              (proj2 hello_encodable))
    as (payload & e' & Hb & Hl & Hx).
  exists payload, e'. split; [exact Hb|]. split; [exact Hl|apply Hx].
Defined.

(** ** The channel stream and the capacity *)

(** X11. The channel stream of a well-formed image has
    [width * height * channels] bytes, where an RGBA image counts 4 channels
    with the alpha channel included and 3 without, an LA image 2 and 1, an
    RGB image 3 and a grayscale image 1; every value of the stream is a
    byte. [get_capacity_bits] of [image_io] is exactly that length times
    [lsb_count]. *)
Theorem channel_stream_length
    (image : Image) (include_alpha : bool) (lsb_count : nat) :
  image_ok image ->
  length (_iter_channel_bytes image include_alpha)
  = (width image * height image
     * usable_channels (mode image) include_alpha)%nat
  /\ bytes_ok (_iter_channel_bytes image include_alpha)
  /\ ImageIO.get_capacity_bits image include_alpha lsb_count
     = Z.of_nat (length (_iter_channel_bytes image include_alpha))
       * Z.of_nat lsb_count.
Proof.
  intros Hok.
  destruct (iter_channel_bytes_ok image include_alpha Hok) as [Hl Hb].
  split; [exact Hl|]. split; [exact Hb|]. rewrite Hl.
  unfold ImageIO.get_capacity_bits, ImageIO.get_num_channels.
  destruct Hok as (n & Hm & _).
  destruct (bands_cases _ _ Hm)
    as [[-> ->]|[[-> ->]|[[-> ->]|[[-> ->]|[-> ->]]]]];
    destruct include_alpha; cbn; lia.
Qed.

Lemma channel_stream_length_witness :
  length (_iter_channel_bytes (Examples.rgba_row 5) false) = 15%nat.
Proof.
  exact (proj1 (channel_stream_length (Examples.rgba_row 5) false 1
                  (rgba_row_ok 5))).
Defined.

Lemma embed_bits_nil n channels : embed_bits n [] channels = channels.
Proof.
  induction channels as [|c cs IH]; cbn [embed_bits]; [reflexivity|].
  now rewrite IH.
Qed.

Lemma embed_bits_tail n k : forall bits channels,
  (length bits <= n * k)%nat ->
  skipn k (embed_bits n bits channels) = skipn k channels.
Proof.
  induction k as [|k IH]; intros bits channels Hlen.
  - rewrite Nat.mul_0_r in Hlen. destruct bits; [|cbn [length] in Hlen; lia].
    now rewrite embed_bits_nil.
  - destruct channels as [|c cs]; [reflexivity|].
    destruct bits as [|bit bits]; [now rewrite embed_bits_nil|].
    cbn [embed_bits skipn]. apply IH. rewrite length_skipn. lia.
Qed.

(** X12. Embedding writes into a prefix of the stream only: the modified
    stream is as long as the input stream, and every channel byte from
    position [k] on is the input byte, as soon as [k] channel bytes hold the
    bits of the payload and its header ([8 * len <= lsb_count * k]). *)
Theorem channels_after_payload_unchanged
    (lsb_count k : nat) (payload_with_header channels : list Z) :
  (8 * length payload_with_header <= lsb_count * k)%nat ->
  length (modified_stream lsb_count payload_with_header channels)
  = length channels
  /\ skipn k (modified_stream lsb_count payload_with_header channels)
     = skipn k channels.
Proof.
  intros H. split; [apply length_modified_stream|].
  rewrite modified_stream_embed_bits. apply embed_bits_tail.
  now rewrite length_expand.
Qed.

Lemma channels_after_payload_unchanged_witness :
  skipn 40 (modified_stream 1 [0; 0; 0; 1; 65]
              (_iter_channel_bytes (Examples.rgb_row 20) false))
  = skipn 40 (_iter_channel_bytes (Examples.rgb_row 20) false).
Proof.
  apply (channels_after_payload_unchanged 1 40 [0; 0; 0; 1; 65]).
  cbn. lia.
Defined.

Lemma store_tuple_errors m value e :
  store_tuple m value = Err e -> e = TypeError \/ e = OverflowError.
Proof.
  unfold store_tuple. destruct (bands m) as [n|]; [|discriminate].
  destruct (n <? 3)%nat; [intros [= <-]; now left|].
  destruct value as [|a [|b [|c [|d [|? ?]]]]];
    try (intros [= <-]; now left);
    match goal with
    | |- context [if ?c then _ else Err OverflowError] => destruct c
    end;
    try (intros [= <-]; now right);
    destruct (n =? 3)%nat; discriminate.
Qed.

Lemma rebuild_pixel_errors m include_alpha channels e :
  rebuild_pixel m include_alpha channels = Err e -> rebuild_error e.
Proof.
  unfold rebuild_pixel, rebuild_error.
  destruct (String.eqb m "L" || String.eqb m "1").
  - destruct channels as [|c rest]; cbn [next bind]; [intros [= <-]; auto|].
    unfold store_int. destruct (c_long_long_ok c); cbn [bind];
      [discriminate|intros [= <-]; auto].
  - destruct (fold_left _ _ _) as [[value it]|e0] eqn:E; cbn [bind].
    + destruct (store_tuple m value) as [stored|e1] eqn:S; cbn [bind];
        [discriminate|].
      intros [= <-]. apply store_tuple_errors in S as [->| ->]; auto.
    + intros [= <-]. revert E.
      destruct (String.eqb m "RGBA"), include_alpha;
        destruct channels as [|a [|b [|c [|d rest]]]];
        cbn; intros [= <-]; auto.
Qed.

Lemma rebuild_fold_errors m include_alpha cds : forall st e,
  (forall e0, st = Err e0 -> rebuild_error e0) ->
  fold_left (rebuild_at m include_alpha) cds st = Err e -> rebuild_error e.
Proof.
  induction cds as [|xy cds IH]; intros st e Hst; cbn [fold_left].
  - apply Hst.
  - apply IH. intros e0. unfold rebuild_at.
    destruct st as [[buf it]|e1]; cbn [bind].
    + destruct (rebuild_pixel m include_alpha it) as [[p it']|e2] eqn:E;
        cbn [bind]; [discriminate|].
      intros [= <-]. eapply rebuild_pixel_errors, E.
    + intros [= <-]. now apply Hst.
Qed.

Lemma channels_to_image_errors image channels include_alpha e :
  _channels_to_image image channels include_alpha = Err e -> rebuild_error e.
Proof.
  unfold _channels_to_image.
  destruct (fold_left _ _ _) as [[buf it]|e0] eqn:E; cbn [bind];
    [discriminate|].
  intros [= <-]. eapply rebuild_fold_errors; [|exact E]. discriminate.
Qed.

(** X13. The capacity check, as the code makes it:
    [embed_payload_into_image] raises [CapacityError] exactly when
    [8 * (len(payload) + 4)] exceeds
    [width * height * (3 if include_alpha else 4) * lsb_count], whatever the
    mode of the image, and the error carries these two numbers. With
    [lsb_count = 0] it is raised for every image and payload. *)
Theorem capacity_error_exactly
    (image : Image) (payload : list Z) (include_alpha : bool)
    (lsb_count : nat) (required available : Z) :
  Z.of_nat (length payload) < 2 ^ 32 ->
  (embed_payload_into_image image payload include_alpha lsb_count
   = Err (CapacityError required available)
   <-> (required = 8 * (Z.of_nat (length payload) + 4)
        /\ available
           = Z.of_nat (width image) * Z.of_nat (height image)
             * (if include_alpha then 3 else 4) * Z.of_nat lsb_count
        /\ required > available))
  /\ (lsb_count = 0%nat ->
      embed_payload_into_image image payload include_alpha lsb_count
      = Err (CapacityError (8 * (Z.of_nat (length payload) + 4)) 0)).
Proof.
  intros Hlen.
  destruct (with_header_ok payload Hlen) as (header & Hh & Hl & _).
  assert (Hreq : Z.of_nat (length (header ++ payload)) * 8
                 = 8 * (Z.of_nat (length payload) + 4))
    by (rewrite length_app, Hl; lia).
  unfold embed_payload_into_image, calculate_required_bits_for_payload.
  rewrite Hh. cbn [bind]. rewrite Hreq. split.
  - set (avail := Z.of_nat (width image) * Z.of_nat (height image)
                  * (if include_alpha then 3 else 4) * Z.of_nat lsb_count).
    destruct (Z.gtb_spec (8 * (Z.of_nat (length payload) + 4)) avail)
      as [Hgt|Hle].
    + split.
      * intros H.
        assert (H1 : required = 8 * (Z.of_nat (length payload) + 4))
          by congruence.
        assert (H2 : available = avail) by congruence.
        split; [exact H1|]. split; [exact H2|lia].
      * intros (-> & -> & _). reflexivity.
    + split.
      * intros H.
        apply channels_to_image_errors in H as [H|[H|[H|H]]]; discriminate.
      * intros (-> & -> & H). lia.
  - intros ->. rewrite Z.mul_0_r.
    destruct (Z.gtb_spec (8 * (Z.of_nat (length payload) + 4)) 0);
      [reflexivity|lia].
Qed.

Lemma capacity_error_exactly_witness :
  embed_payload_into_image (Examples.rgba_row 10) [] true 1
  = Err (CapacityError 32 30).
Proof.
  apply (proj1 (capacity_error_exactly (Examples.rgba_row 10) [] true 1 32 30
                  ltac:(cbn; lia))).
  split; [reflexivity|]. split; reflexivity.
Defined.

(** ** Embedding into the supported images *)

Lemma regroup_ok m include_alpha n : forall channels,
  supported m include_alpha -> bytes_ok channels ->
  length channels = (per_pixel m * n)%nat ->
  Forall (pixel_ok (per_pixel m)) (regroup m (per_pixel m) n channels).
Proof.
  induction n as [|n IH]; intros channels Hs Hb Hlen; cbn [regroup];
    constructor.
  - assert (Hf : length (firstn (per_pixel m) channels) = per_pixel m)
      by (rewrite length_firstn; lia).
    pose proof (bytes_ok_firstn (per_pixel m) channels Hb) as Hfb.
    destruct Hs as [->|[->|[-> ->]]]; cbn in Hf, Hfb |- *.
    + destruct channels as [|c rest]; [discriminate|].
      cbn. split; [reflexivity|]. inversion Hfb; assumption.
    + split; [lia|]. split; assumption.
    + split; [lia|]. split; assumption.
  - apply IH; [exact Hs|now apply bytes_ok_skipn|rewrite length_skipn; lia].
Qed.

Lemma supported_bands m include_alpha :
  supported m include_alpha -> bands m = Some (per_pixel m).
Proof. intros [->|[->|[-> ->]]]; reflexivity. Qed.

(** X14. On a grayscale or RGB image, and on an RGBA image with the alpha
    channel included, a payload that passes the capacity check is embedded:
    the call returns a well-formed image of the same mode, width and
    height. *)
Theorem embed_returns_image_of_same_shape
    (image : Image) (payload : list Z) (include_alpha : bool)
    (lsb_count : nat) :
  image_ok image -> supported (mode image) include_alpha ->
  (lsb_count <= 8)%nat ->
  Z.of_nat (length payload) < 2 ^ 32 ->
  8 * (Z.of_nat (length payload) + 4)
  <= Z.of_nat (width image) * Z.of_nat (height image)
     * (if include_alpha then 3 else 4) * Z.of_nat lsb_count ->
  exists out,
    embed_payload_into_image image payload include_alpha lsb_count = Ok out
    /\ mode out = mode image /\ width out = width image
    /\ height out = height image /\ image_ok out.
Proof.
  intros Hok Hs Hlsb Hlen Hcap.
  destruct (with_header_ok payload Hlen) as (header & Hh & Hl & _).
  destruct (iter_channel_bytes_ok image include_alpha Hok) as [Hstream Hb].
  destruct (supported_cases _ _ Hs) as [_ Hk].
  assert (Hm : length (modified_stream lsb_count (header ++ payload)
                         (_iter_channel_bytes image include_alpha))
               = (per_pixel (mode image) * (width image * height image))%nat)
    by (rewrite length_modified_stream, Hstream, Hk; lia).
  rewrite (embed_payload_unfold image payload include_alpha lsb_count header)
    by assumption.
  assert (Hmb : bytes_ok (modified_stream lsb_count (header ++ payload)
                            (_iter_channel_bytes image include_alpha)))
    by (rewrite modified_stream_embed_bits; now apply embed_bits_bytes).
  rewrite channels_to_image_ok by assumption.
  eexists. split; [reflexivity|]. cbn [mode width height].
  do 3 (split; [reflexivity|]).
  exists (per_pixel (mode image)). cbn [mode width height buffer].
  split; [now apply (supported_bands _ include_alpha)|].
  split; [apply length_regroup|].
  apply (regroup_ok _ include_alpha); [exact Hs|exact Hmb|exact Hm].
Qed.

Lemma embed_returns_image_of_same_shape_witness :
  exists out,
    embed_payload_into_image Examples.rgb_rect [1; 2; 3] false 1 = Ok out
    /\ mode out = "RGB"%string /\ width out = 20%nat
    /\ height out = 10%nat /\ image_ok out.
Proof.
  apply (embed_returns_image_of_same_shape Examples.rgb_rect [1; 2; 3]
           false 1 rgb_rect_ok).
  - right. left. reflexivity.
  - lia.
  - cbn. lia.
  - cbn. lia.
Defined.

(** X15. Embedding then extracting with the same [include_alpha] and
    [lsb_count] (1 to 8) returns the payload, on grayscale and RGB images,
    and on RGBA images with the alpha channel included, whenever the
    payload with its header fits the channel stream and passes the
    capacity check of the code. *)
Theorem embed_then_extract
    (image : Image) (payload : list Z) (include_alpha : bool)
    (lsb_count : nat) :
  image_ok image -> supported (mode image) include_alpha ->
  (1 <= lsb_count <= 8)%nat -> bytes_ok payload ->
  Z.of_nat (length payload) < 2 ^ 32 ->
  8 * (Z.of_nat (length payload) + 4)
  <= Z.of_nat (length (_iter_channel_bytes image include_alpha))
     * Z.of_nat lsb_count ->
  8 * (Z.of_nat (length payload) + 4)
  <= Z.of_nat (width image) * Z.of_nat (height image)
     * (if include_alpha then 3 else 4) * Z.of_nat lsb_count ->
  exists out,
    embed_payload_into_image image payload include_alpha lsb_count = Ok out
    /\ extract_payload_from_image out include_alpha lsb_count = Ok payload.
Proof. apply embed_extract_round_trip. Qed.

Lemma embed_then_extract_witness :
  exists out,
    embed_payload_into_image Examples.rgb_rect [1; 2; 3] false 3 = Ok out
    /\ extract_payload_from_image out false 3 = Ok [1; 2; 3].
Proof.
  apply (embed_then_extract Examples.rgb_rect [1; 2; 3] false 3 rgb_rect_ok).
  - right. left. reflexivity.
  - lia.
  - now apply bytes_ok_of_forallb.
  - cbn. lia.
  - vm_compute. discriminate.
  - cbn. lia.
Defined.

(** ** Images the rebuild cannot handle *)

(** In an LA image the rebuild reads three channel bytes for the first
    pixel, and stops where the stream has fewer; the tuple of three values is
    then refused by the image of two bands. *)
Lemma channels_to_image_la image channels include_alpha :
  mode image = "LA"%string -> (0 < width image * height image)%nat ->
  _channels_to_image image channels include_alpha
  = Err (if (3 <=? length channels)%nat then TypeError else StopIteration).
Proof.
  intros Hm Hpx. unfold _channels_to_image. rewrite Hm.
  pose proof (length_coords (width image) (height image)) as Hc.
  destruct (coords (width image) (height image)) as [|xy cds];
    [cbn [length] in Hc; lia|].
  cbn [fold_left].
  destruct channels as [|a [|b [|c rest]]]; destruct include_alpha;
    cbn [length Nat.leb];
    match goal with
    | |- context [fold_left _ _ ?st] =>
        match goal with
        | |- _ = Err ?e =>
            change st with (@Err (list pixel * list Z) e)
        end
    end;
    now rewrite rebuild_at_err.
Qed.

(** X16. An LA image (grayscale with alpha) is never embedded into: the
    generator yields one or two channel bytes per pixel, the rebuild reads
    three for the first pixel and stores them as a tuple of three values,
    which an image of two bands refuses. Every call that passes the capacity
    check on an image with at least one pixel ends in an exception instead
    of an image, with the alpha channel included or not: [TypeError] from
    the first store when the channel stream has three bytes or more,
    [StopIteration] from [next] when it has fewer. *)
Theorem la_images_are_never_embedded
    (image : Image) (payload : list Z) (include_alpha : bool)
    (lsb_count : nat) :
  image_ok image -> mode image = "LA"%string ->
  (0 < width image * height image)%nat ->
  Z.of_nat (length payload) < 2 ^ 32 ->
  8 * (Z.of_nat (length payload) + 4)
  <= Z.of_nat (width image) * Z.of_nat (height image)
     * (if include_alpha then 3 else 4) * Z.of_nat lsb_count ->
  length (_iter_channel_bytes image include_alpha)
  = (width image * height image * (if include_alpha then 2 else 1))%nat
  /\ embed_payload_into_image image payload include_alpha lsb_count
     = Err (if (3 <=? length (_iter_channel_bytes image include_alpha))%nat
            then TypeError else StopIteration).
Proof.
  intros Hok Hm Hpx Hlen Hcap.
  destruct (with_header_ok payload Hlen) as (header & Hh & Hl & _).
  split.
  - rewrite (proj1 (iter_channel_bytes_ok image include_alpha Hok)), Hm.
    now destruct include_alpha.
  - rewrite (embed_payload_unfold image payload include_alpha lsb_count
               header) by assumption.
    rewrite channels_to_image_la by assumption.
    now rewrite length_modified_stream.
Qed.

Lemma la_images_are_never_embedded_witness :
  embed_payload_into_image
    (mkImage "LA" 20 1 (repeat (PTuple [7; 255]) 20)) [] true 1
  = Err TypeError.
Proof.
  refine (proj2 (la_images_are_never_embedded
                   (mkImage "LA" 20 1 (repeat (PTuple [7; 255]) 20)) [] true 1
                   _ _ _ _ _)).
  - exists 2%nat. cbn. split; [reflexivity|]. split; [reflexivity|].
    apply (repeat_pixels_ok 2 _ 20). cbn. split; [lia|].
    split; [reflexivity|]. now apply bytes_ok_of_forallb.
  - reflexivity.
  - cbn. lia.
  - cbn. lia.
  - cbn. lia.
Defined.

(** ** Payloads that do not fit *)

Lemma length_stream_bits n channels :
  length (stream_bits n channels) = (n * length channels)%nat.
Proof.
  unfold stream_bits. induction channels as [|c cs IH]; cbn [flat_map length].
  - lia.
  - rewrite length_app, IH. unfold low_bits.
    rewrite length_map, length_seq. lia.
Qed.

Lemma firstn_plus {A} (a b : nat) (l : list A) :
  firstn (a + b) l = firstn a l ++ firstn b (skipn a l).
Proof.
  revert l. induction a as [|a IH]; intros l; [reflexivity|].
  destruct l as [|x l]; cbn [Nat.add firstn skipn app].
  - now rewrite firstn_nil.
  - now rewrite IH.
Qed.

(** When the payload bits outnumber the places of the stream, the stream
    holds the bits that found a place. *)
Lemma stream_bits_embed_bits_full n channels : forall bits,
  (n <= 8)%nat -> bytes_ok channels ->
  (n * length channels <= length bits)%nat ->
  stream_bits n (embed_bits n bits channels)
  = firstn (n * length channels) bits.
Proof.
  intros bits Hn Hcs. revert bits.
  induction Hcs as [|c cs Hc Hcs IH]; intros bits Hlen.
  - cbn [length]. now rewrite Nat.mul_0_r.
  - cbn [length] in Hlen |- *.
    replace (n * S (length cs))%nat with (n + n * length cs)%nat in * by lia.
    rewrite firstn_plus.
    destruct bits as [|bit bits].
    + cbn [length] in Hlen. assert (n = 0)%nat as -> by lia.
      rewrite embed_bits_nil. apply length_zero_iff_nil.
      rewrite length_stream_bits. lia.
    + cbn [embed_bits]. unfold stream_bits. cbn [flat_map].
      fold (stream_bits n (embed_bits n (skipn n (bit :: bits)) cs)).
      rewrite low_bits_embedded by (assumption || apply firstn_le_length).
      rewrite IH by (rewrite length_skipn; lia).
      rewrite length_firstn, Nat.min_l by lia.
      rewrite Nat.sub_diag. cbn [repeat]. now rewrite app_nil_r.
Qed.

Lemma group8_firstn_expand data : forall m,
  bytes_ok data -> group8 (firstn m (expand data)) = firstn (m / 8) data.
Proof.
  intros m Hd. revert m. induction Hd as [|b data Hb Hd IH]; intros m.
  - unfold expand. cbn [flat_map]. now rewrite !firstn_nil.
  - destruct (Nat.lt_ge_cases m 8) as [Hlt|Hge].
    + rewrite group8_short by (rewrite length_firstn; lia).
      now rewrite Nat.div_small.
    + replace m with (8 + (m - 8))%nat at 1 by lia.
      rewrite firstn_plus. unfold expand. cbn [flat_map].
      fold (expand data).
      rewrite (firstn_app_exact (byte_bits b)) by reflexivity.
      rewrite (skipn_app_exact (byte_bits b)) by reflexivity.
      replace (byte_bits b ++ firstn (m - 8) (expand data))
        with (expand [b] ++ firstn (m - 8) (expand data))
        by (unfold expand; cbn [flat_map]; now rewrite app_nil_r).
      rewrite group8_expand_app by (constructor; [exact Hb|constructor]).
      rewrite IH.
      replace (m / 8)%nat with (S ((m - 8) / 8)).
      * reflexivity.
      * replace m with ((m - 8) + 1 * 8)%nat at 2 by lia.
        rewrite Nat.div_add by lia. lia.
Qed.

(** X17. A payload that passes the capacity check of the code but does not
    fit the channel stream is embedded all the same, cut off where the
    stream ends: on grayscale and RGB images (1 to 8 bits per channel byte)
    [embed_payload_into_image] returns an image and raises nothing, and
    [extract_payload_from_image] then fails on that image with
    [FormatError]. *)
Theorem oversized_payload_is_truncated
    (image : Image) (payload : list Z) (include_alpha : bool)
    (lsb_count : nat) :
  image_ok image -> supported (mode image) include_alpha ->
  (1 <= lsb_count <= 8)%nat -> bytes_ok payload ->
  Z.of_nat (length payload) < 2 ^ 32 ->
  8 * (Z.of_nat (length payload) + 4)
  <= Z.of_nat (width image) * Z.of_nat (height image)
     * (if include_alpha then 3 else 4) * Z.of_nat lsb_count ->
  8 * (Z.of_nat (length payload) + 4)
  > Z.of_nat (length (_iter_channel_bytes image include_alpha))
    * Z.of_nat lsb_count ->
  exists out message,
    embed_payload_into_image image payload include_alpha lsb_count = Ok out
    /\ extract_payload_from_image out include_alpha lsb_count
       = Err (FormatError message).
Proof.
  intros Hok Hs Hlsb Hp Hlen Hcap Hbig.
  destruct (embed_payload_ok image payload include_alpha lsb_count
              Hok Hs ltac:(lia) Hlen Hcap)
    as (header & out & Hh & Hl & Hb & He & Hout & Hstream & _).
  destruct (iter_channel_bytes_ok image include_alpha Hok) as [_ Hbytes].
  exists out. rewrite Hout, extract_payload_unfold, Hstream,
    modified_stream_embed_bits.
  set (channels := _iter_channel_bytes image include_alpha) in *.
  rewrite stream_bits_embed_bits_full;
    [|lia|exact Hbytes|rewrite length_expand, length_app, Hl; lia].
  rewrite group8_firstn_expand by (apply bytes_ok_app; assumption).
  set (m := (lsb_count * length channels / 8)%nat).
  assert (Hm : (m < 4 + length payload)%nat).
  { unfold m. apply Nat.Div0.div_lt_upper_bound. lia. }
  cbv zeta. rewrite length_firstn, length_app, Hl.
  rewrite Nat.min_l by lia.
  destruct (Nat.ltb_spec m 4) as [H4|H4]; [eauto|].
  rewrite firstn_firstn, Nat.min_l by lia.
  rewrite (firstn_app_exact header) by exact Hl. rewrite He.
  destruct (Z.ltb_spec (Z.of_nat m) (4 + Z.of_nat (length payload)));
    [eauto|lia].
Qed.

Lemma oversized_payload_is_truncated_witness :
  exists out message,
    embed_payload_into_image (Examples.rgb_row 11) [65] false 1 = Ok out
    /\ extract_payload_from_image out false 1 = Err (FormatError message).
Proof.
  apply (oversized_payload_is_truncated (Examples.rgb_row 11) [65] false 1
           (rgb_row_ok 11)).
  - right. left. reflexivity.
  - lia.
  - now apply bytes_ok_of_forallb.
  - cbn. lia.
  - cbn. lia.
  - vm_compute. reflexivity.
Defined.

(** X18. An image whose channel stream offers fewer than 32 bits
    ([len(stream) * lsb_count < 32], as with [lsb_count = 0] or an image of
    few pixels) has no room for the length header:
    [extract_payload_from_image] raises [FormatError] with the message
    "Payload header missing or corrupted". *)
Theorem extract_needs_a_header
    (image : Image) (include_alpha : bool) (lsb_count : nat) :
  (length (_iter_channel_bytes image include_alpha) * lsb_count < 32)%nat ->
  extract_payload_from_image image include_alpha lsb_count
  = Err (FormatError "Payload header missing or corrupted").
Proof.
  intros H. rewrite extract_payload_unfold. cbv zeta.
  rewrite length_group8, length_stream_bits.
  destruct (Nat.ltb_spec
              (lsb_count * length (_iter_channel_bytes image include_alpha) / 8)
              4) as [|Hge]; [reflexivity|].
  exfalso. apply Nat.lt_nge in H. apply H.
  pose proof (Nat.Div0.mul_div_le
    (lsb_count * length (_iter_channel_bytes image include_alpha)) 8).
  lia.
Qed.

Lemma extract_needs_a_header_witness :
  extract_payload_from_image (Examples.rgb_row 10) false 1
  = Err (FormatError "Payload header missing or corrupted").
Proof.
  apply extract_needs_a_header. vm_compute. lia.
Defined.

(** ** Reading the text back *)

(** A text that starts with the start tag and ends with the end tag has
    both, one after the other: the tags cannot overlap. *)
Lemma tags_do_not_overlap s :
  startswith s START_TAG && endswith s END_TAG = true ->
  s = START_TAG
      ++ slice (length START_TAG) (length s - length END_TAG) s ++ END_TAG.
Proof.
  intros H. apply andb_prop in H as [Hs He].
  unfold startswith in Hs. apply list_eqb_eq in Hs.
  unfold endswith in He. apply andb_prop in He as [Hl He].
  apply list_eqb_eq in He. apply Nat.leb_le in Hl.
  change (length START_TAG) with 11%nat in *.
  change (length END_TAG) with 9%nat in *.
  assert (Hs' : s = START_TAG ++ skipn 11 s)
    by (rewrite <- Hs at 1; symmetry; apply firstn_skipn).
  assert (H11 : (11 <= length s)%nat).
  { apply (f_equal (@length Z)) in Hs. rewrite length_firstn in Hs.
    change (length START_TAG) with 11%nat in Hs. lia. }
  unfold slice.
  remember (skipn 11 s) as r eqn:Er.
  assert (Hr : length s = (11 + length r)%nat)
    by (subst r; rewrite length_skipn; lia).
  assert (He' : skipn (2 + length r) (START_TAG ++ r) = END_TAG).
  { rewrite <- Hs'. rewrite <- He. f_equal. lia. }
  assert (H9 : (9 <= length r)%nat).
  { destruct (Nat.le_gt_cases 9 (length r)) as [|Hlt]; [assumption|exfalso].
    clear - He' Hlt.
    do 9 (destruct r as [|? r];
          [vm_compute in He'; discriminate|]).
    cbn [length] in Hlt. lia. }
  replace (length s - 9 - 11)%nat with (length r - 9)%nat by lia.
  assert (Hend : skipn (length r - 9) r = END_TAG).
  { rewrite <- He'.
    replace (2 + length r)%nat with ((length r - 9) + 11)%nat by lia.
    rewrite <- skipn_skipn.
    now rewrite (skipn_app_exact START_TAG) by reflexivity. }
  rewrite <- Hend, firstn_skipn. exact Hs'.
Qed.

(** X19. A text that [extract_text_from_payload] returns was wrapped in
    both tags: the payload has at least 44 bytes, its ciphertext opened
    under the key derived from the password and the salt of the payload, the
    plaintext decoded as UTF-8, and the decoded text, rotated back by the
    length of the password, is exactly start tag, returned text, end tag. *)
Theorem returned_text_was_tagged
    (P : Crypto.Primitives) (payload password text : list Z)
    (e : Crypto.entropy) :
  extract_text_from_payload payload password e = Ok text ->
  (44 <= length payload)%nat
  /\ exists key plaintext decoded,
       Crypto.derive_key_from_password password
         (Some (firstn 16 payload)) None e
       = Ok (key, firstn 16 payload, e)
       /\ Crypto.decrypt_with_aes_gcm (skipn 44 payload) key
            (firstn 12 (skipn 16 payload)) (firstn 16 (skipn 28 payload))
          = Ok plaintext
       /\ bytes_to_text plaintext = Ok decoded
       /\ rotate_letters decoded (- Z.of_nat (length password))
          = START_TAG ++ text ++ END_TAG.
Proof.
  unfold extract_text_from_payload. intros H.
  destruct (Nat.lt_ge_cases (length payload) 44) as [Hlt|Hge].
  { unfold Crypto.unpack_encrypted_payload in H.
    change (Crypto.SALT_LENGTH + Crypto.NONCE_LENGTH + Crypto.TAG_LENGTH)%nat
      with 44%nat in H.
    destruct (Nat.ltb_spec (length payload) 44); [discriminate|lia]. }
  split; [exact Hge|].
  rewrite unpack_ok in H by exact Hge. cbn [bind] in H.
  destruct (Crypto.derive_key_from_password password
              (Some (firstn 16 payload)) None e)
    as [[[key salt] e1]|] eqn:Hk; [|discriminate].
  cbn [bind] in H.
  assert (Hk' : salt = firstn 16 payload /\ e1 = e).
  { unfold Crypto.derive_key_from_password in Hk.
    destruct (Crypto.PBKDF2HMAC _ _ _) as [k|]; [|discriminate].
    cbn [bind] in Hk.
    destruct (utf8_encode password) as [pw|]; [|discriminate].
    cbn [bind] in Hk.
    destruct (k pw); [|discriminate].
    cbn [bind] in Hk. split; congruence. }
  destruct Hk' as [-> ->].
  destruct (Crypto.decrypt_with_aes_gcm _ key _ _) as [plaintext|] eqn:Hd;
    [|discriminate].
  cbn [bind] in H.
  destruct (bytes_to_text plaintext) as [decoded|] eqn:Ht; [|discriminate].
  cbn [bind] in H.
  destruct (startswith _ START_TAG && endswith _ END_TAG) eqn:Htags;
    [|discriminate].
  injection H as <-.
  exists key, plaintext, decoded.
  split; [first [reflexivity|exact Hk]|].
  split; [first [reflexivity|exact Hd]|].
  split; [first [reflexivity|exact Ht]|].
  now apply tags_do_not_overlap.
Qed.

Lemma returned_text_was_tagged_witness :
  (44 <= length (repeat 0%Z 44 ++ START_TAG ++ END_TAG))%nat.
Proof.
  refine (proj1 (returned_text_was_tagged Examples.null_primitives
                   (repeat 0%Z 44 ++ START_TAG ++ END_TAG)
                   [] [] Examples.zero_entropy _)).
  vm_compute. reflexivity.
Defined.

(** ** From the message to the image and back *)

(** X20. The whole pipeline on grayscale and RGB images, and on RGBA images
    with the alpha channel included: the payload built from a text is
    embedded, extracted and read back as the same text, under the same
    password, [include_alpha] and [lsb_count] (1 to 8), whenever the payload
    with its header fits the channel stream and passes the capacity check
    of the code. The payload has at most [124 + 4 * len(text)] bytes. *)
Theorem message_round_trip_through_image
    (P : Crypto.Primitives) (L : Crypto.PrimitivesLaws P)
    (image : Image) (text password : list Z) (include_alpha : bool)
    (lsb_count : nat) (e : Crypto.entropy) :
  image_ok image -> supported (mode image) include_alpha ->
  (1 <= lsb_count <= 8)%nat ->
  encodable text -> encodable password ->
  (forall i, is_byte (e i)) ->
  exists payload e',
    build_payload_from_text text password None e = Ok (payload, e')
    /\ (64 <= length payload <= 124 + 4 * length text)%nat
    /\ (Z.of_nat (length payload) < 2 ^ 32 ->
        8 * (Z.of_nat (length payload) + 4)
        <= Z.of_nat (length (_iter_channel_bytes image include_alpha))
           * Z.of_nat lsb_count ->
        8 * (Z.of_nat (length payload) + 4)
        <= Z.of_nat (width image) * Z.of_nat (height image)
           * (if include_alpha then 3 else 4) * Z.of_nat lsb_count ->
        exists out extracted,
          embed_payload_into_image image payload include_alpha lsb_count
          = Ok out
          /\ extract_payload_from_image out include_alpha lsb_count
             = Ok extracted
          /\ forall e'',
               extract_text_from_payload extracted password e'' = Ok text).
Proof.
  intros Hok Hs Hlsb Ht Hp He.
  destruct (text_round_trip text password e Ht Hp)
    as (payload & e' & Hb & Hl & Hbytes & Hx).
  exists payload, e'. split; [exact Hb|]. split.
  - split; [exact Hl|].
    destruct (build_payload_length P L _ _ _ _ _ Ht Hp Hb)
      as (utf8_bytes & Hu & Hlen).
    destruct (utf8_round_trip _ (rotate_letters_encodable _
                (Z.of_nat (length password)) (tagged_encodable text Ht)))
      as (bs & Hu' & _ & Hbs & _).
    rewrite Hu in Hu'. injection Hu' as <-.
    rewrite length_rotate_letters, !length_app in Hbs.
    change (length START_TAG) with 11%nat in Hbs.
    change (length END_TAG) with 9%nat in Hbs. lia.
  - intros Hlen Hfit Hcap.
    destruct (embed_extract_round_trip image payload include_alpha lsb_count
                Hok Hs Hlsb (Hbytes He) Hlen Hfit Hcap) as (out & Ho & Hr).
    exists out, payload. auto.
Qed.

Lemma message_round_trip_through_image_witness :
  exists payload e',
    @build_payload_from_text Examples.null_primitives Examples.hello
      Examples.secret123 None Examples.zero_entropy = Ok (payload, e')
    /\ exists out extracted,
         embed_payload_into_image Examples.rgb_rect payload false 3 = Ok out
         /\ extract_payload_from_image out false 3 = Ok extracted
         /\ @extract_text_from_payload Examples.null_primitives extracted
              Examples.secret123 Examples.zero_entropy = Ok Examples.hello.
Proof.
  destruct (message_round_trip_through_image Examples.null_primitives
              null_primitives_laws Examples.rgb_rect Examples.hello
              Examples.secret123 false 3 Examples.zero_entropy rgb_rect_ok)
    as (payload & e' & Hb & [_ Hl] & H).
  - right. left. reflexivity.
  - lia.
  - apply hello_encodable.
  - apply hello_encodable.
  - apply zero_entropy_bytes.
  - exists payload, e'. split; [exact Hb|].
    change (length Examples.hello) with 18%nat in Hl.
    destruct H as (out & extracted & Ho & Hr & Hx).
    + change (2 ^ 32) with 4294967296. lia.
    + change (length (_iter_channel_bytes Examples.rgb_rect false))
        with 600%nat. lia.
    + cbn [Examples.rgb_rect width height]. lia.
    + exists out, extracted. split; [exact Ho|]. split; [exact Hr|apply Hx].
Defined.
